(** * yolo/tools/dataset_helper.py: annotation indexing and polygon scaling

    A shallow embedding of the four functions of [dataset_helper.py]
    ([find_labels_path], [create_image_info_dict],
    [index_annotations_by_image], [get_scaled_segmentation]) and the
    properties of them that the design document states.

    Conventions of the embedding.
    - A Python exception is a value of [exn]; a call that may raise returns
      a [result].
    - A JSON object read with [d["key"]] is a record whose fields are
      options: [None] is "the key is absent", and reading it raises
      [KeyError].
    - A [dict] is a [gmap]; a [for] loop is [for_each], a fold of the loop
      body over the list that stops at the first exception.
    - The numbers numpy computes with are a type [num] with a division
      [ndiv], both parameters of the scaler: what is proved about the shape
      of the output holds for any arithmetic.  The bound on the normalised
      values is proved for exact rational division ([Qc]), the real-valued
      division of the design document. *)

From Stdlib Require Import QArith Qcanon Ascii.
From stdpp Require Import numbers strings gmap fin_maps list.

Close Scope Qc_scope.
Close Scope Q_scope.
Local Open Scope string_scope.
Local Open Scope list_scope.

(** ** Exceptions and results *)

Inductive exn : Type :=
  | KeyError (key : string)
  | ValueError
  | FileNotFoundError.

Inductive result (A : Type) : Type :=
  | Ok (a : A)
  | Raise (e : exn).
Arguments Ok {A} a.
Arguments Raise {A} e.

Definition bind {A B} (r : result A) (k : A → result B) : result B :=
  match r with
  | Ok a => k a
  | Raise e => Raise e
  end.

Notation "x ←! r ; k" := (bind r (λ x, k))
  (at level 100, r at next level, right associativity, only parsing).

(** [d[key]] on a JSON object whose field [key] is [field]. *)
Definition getitem {A} (key : string) (field : option A) : result A :=
  match field with
  | Some v => Ok v
  | None => Raise (KeyError key)
  end.

(** [for x in l: s = body s x], leaving the loop at the first exception. *)
Fixpoint for_each {A S} (body : S → A → result S) (l : list A) (s : S)
    : result S :=
  match l with
  | [] => Ok s
  | x :: l' => s' ←! body s x; for_each body l' s'
  end.

(** ** Data model *)

(** The value of an ["iscrowd"] entry: COCO files write 0 or 1, other
    producers write a JSON boolean.  [truthy] is Python's truth test, the
    one [if anno["iscrowd"]:] applies. *)
Inductive flag : Type :=
  | FBool (b : bool)
  | FInt (z : Z).

Definition truthy (f : flag) : bool :=
  match f with
  | FBool b => b
  | FInt z => negb (z =? 0)%Z
  end.

Section DataModel.
Context {num : Type}.

(** An annotation descriptor. *)
Record annotation : Type := Annotation {
  image_id : option Z;
  category_id : option Z;
  iscrowd : option flag;
  segmentation : option (list (list num))
}.

(** An image descriptor; also the [image_dimensions] argument of
    [get_scaled_segmentation]. *)
Record image : Type := Image {
  img_id : option Z;
  file_name : option string;
  height : option num;
  width : option num
}.

(** The decoded annotation file. *)
Record corpus : Type := Corpus {
  images : option (list image);
  annotations : option (list annotation)
}.
End DataModel.
Arguments annotation : clear implicits.
Arguments image : clear implicits.
Arguments corpus : clear implicits.

(** ** [index_annotations_by_image] *)

Section Indexer.
Context {num : Type}.

(** The body of the loop over [data["annotations"]]. *)
Definition index_step (annotation_lookup : gmap Z (list (annotation num)))
    (anno : annotation num) : result (gmap Z (list (annotation num))) :=
  crowd ←! getitem "iscrowd" (iscrowd anno);
  if truthy crowd then Ok annotation_lookup
  else
    image_id ←! getitem "image_id" (image_id anno);
    let annotation_lookup :=
      match annotation_lookup !! image_id with
      | None => <[image_id := []]> annotation_lookup
      | Some _ => annotation_lookup
      end in
    Ok (<[image_id := default [] (annotation_lookup !! image_id) ++ [anno]]>
          annotation_lookup).

Definition index_annotations_by_image (data : corpus num)
    : result (gmap Z (list (annotation num))) :=
  annos ←! getitem "annotations" (annotations data);
  for_each index_step annos ∅.
End Indexer.

(** ** Paths and strings: the parts of [os.path] and [str] the module calls *)

(** [s.startswith(prefix)] and [s.endswith(suffix)]. *)
Definition startswith (s pre : string) : bool := String.prefix pre s.

Definition endswith (s suffix : string) : bool :=
  (String.length suffix <=? String.length s)%nat
  && String.eqb
       (String.substring (String.length s - String.length suffix)
                  (String.length suffix) s)
       suffix.

(** [posixpath.join(a, *p)]: a component that starts with the separator
    replaces what came before; otherwise it is appended, with a separator
    unless the path so far is empty or already ends with one. *)
Definition join_step (path b : string) : string :=
  if startswith b "/" then b
  else if String.eqb path EmptyString || endswith path "/" then path +:+ b
  else path +:+ "/" +:+ b.

Definition path_join (a : string) (p : list string) : string :=
  foldl join_step a p.

(** [p.rfind(c)] for a one-character [c]: the greatest index at which [c]
    occurs in [p], or -1. *)
Fixpoint rfind_from (c : ascii) (p : string) (i last : Z) : Z :=
  match p with
  | EmptyString => last
  | String d p' =>
      rfind_from c p' (i + 1) (if Ascii.eqb d c then i else last)
  end.

Definition rfind (c : ascii) (p : string) : Z := rfind_from c p 0 (-1).

(** The [while] loop of [genericpath._splitext]: is there, among the [n]
    characters of [p] from [filenameIndex] on, one that is not a dot? *)
Fixpoint has_non_dot (p : string) (filenameIndex n : nat) : bool :=
  match n with
  | O => false
  | S n' =>
      if negb (String.eqb (String.substring filenameIndex 1 p) ".") then true
      else has_non_dot p (S filenameIndex) n'
  end.

(** [posixpath.splitext(p)]: the extension starts at the last dot of the
    last path component, unless that component has only dots before it. *)
Definition splitext (p : string) : string * string :=
  let sepIndex := rfind "/" p in
  let dotIndex := rfind "." p in
  if (sepIndex <? dotIndex)%Z
     && has_non_dot p (Z.to_nat (sepIndex + 1))
                      (Z.to_nat (dotIndex - (sepIndex + 1)))
  then (String.substring 0 (Z.to_nat dotIndex) p,
        String.substring (Z.to_nat dotIndex) (String.length p - Z.to_nat dotIndex) p)
  else (p, EmptyString).

(** ** [create_image_info_dict] *)

Section ImageInfo.
Context {num : Type}.

(** [open(labels_path)] followed by [json.load]: the file system and the
    JSON decoder are the environment of the module. *)
Variable json_load : string → result (corpus num).

(** One step of the comprehension
    [{path.splitext(img["file_name"])[0]: img for img in ...}]. *)
Definition image_info_step (image_info_dict : gmap string (image num))
    (img : image num) : result (gmap string (image num)) :=
  name ←! getitem "file_name" (file_name img);
  Ok (<[(splitext name).1 := img]> image_info_dict).

Definition create_image_info_dict (labels_path : string)
    : result (gmap Z (list (annotation num)) * gmap string (image num)) :=
  labels_data ←! json_load labels_path;
  annotations_index ←! index_annotations_by_image labels_data;
  imgs ←! getitem "images" (images labels_data);
  image_info_dict ←! for_each image_info_step imgs ∅;
  Ok (annotations_index, image_info_dict).
End ImageInfo.

(** ** [get_scaled_segmentation] *)

(** An element of an output list: the category id in front, floats after. *)
Inductive cell (num : Type) : Type :=
  | CategoryId (c : Z)
  | Coord (v : num).
Arguments CategoryId {num} c.
Arguments Coord {num} v.

Section Scaler.
Context {num : Type}.

(** numpy's true division on the elements of two arrays. *)
Variable ndiv : num → num → num.

(** [np.array(l).reshape(-1, 2)]: rows of two, [ValueError] when the size
    of the array is not a multiple of two. *)
Fixpoint rows_of (l : list num) : list (list num) :=
  match l with
  | x :: y :: l' => [x; y] :: rows_of l'
  | _ => []
  end.

Definition reshape2 (l : list num) : result (list (list num)) :=
  if Nat.even (length l) then Ok (rows_of l) else Raise ValueError.

(** [arr / d] for a two-column [arr] and a row [d]: [d] is broadcast over
    the rows and the division is element by element. *)
Definition divide_rows (arr : list (list num)) (d : list num)
    : list (list num) :=
  map (λ row, zip_with ndiv row d) arr.

(** The body of the loop over [annotations]. *)
Definition scale_step (h w : num) (seg_array_with_cat : list (list (cell num)))
    (anno : annotation num) : result (list (list (cell num))) :=
  category_id ←! getitem "category_id" (category_id anno);
  rings ←! getitem "segmentation" (segmentation anno);
  let seg_list := concat rings in
  arr ←! reshape2 seg_list;
  let scaled_seg_data := divide_rows arr [w; h] in
  let scaled_flat_seg_data :=
    CategoryId category_id :: map Coord (concat scaled_seg_data) in
  Ok (seg_array_with_cat ++ [scaled_flat_seg_data]).

Definition get_scaled_segmentation (annotations : option (list (annotation num)))
    (image_dimensions : image num) : result (option (list (list (cell num)))) :=
  match annotations with
  | None => Ok None
  | Some annotations =>
      h ←! getitem "height" (height image_dimensions);
      w ←! getitem "width" (width image_dimensions);
      seg_array_with_cat ←! for_each (scale_step h w) annotations [];
      Ok (Some seg_array_with_cat)
  end.
End Scaler.

(** ** [find_labels_path] *)

(** What the function asks of the file system. *)
Record filesystem : Type := FileSystem {
  isfile : string → bool;
  isdir : string → bool;
  listdir : string → list string
}.

Definition json_labels_path (dataset_path phase_name : string) : string :=
  path_join dataset_path
    ["annotations"; "instances_" +:+ phase_name +:+ ".json"].

Definition txt_labels_path (dataset_path phase_name : string) : string :=
  path_join dataset_path ["labels"; phase_name].

Definition find_labels_path (fs : filesystem) (dataset_path phase_name : string)
    : result (string * string) :=
  let json_labels_path := json_labels_path dataset_path phase_name in
  let txt_labels_path := txt_labels_path dataset_path phase_name in
  if isfile fs json_labels_path && false then Ok (json_labels_path, "json")
  else if isdir fs txt_labels_path then
    let txt_files :=
      List.filter (λ f, endswith f ".txt") (listdir fs txt_labels_path) in
    match txt_files with
    | _ :: _ => Ok (txt_labels_path, "txt")
    | [] => Raise FileNotFoundError
    end
  else Raise FileNotFoundError.

(** ** What the design document says, in the terms of the embedding *)

Section IndexerSpec.
Context {num : Type}.

(** The annotation carries a true ["iscrowd"] flag. *)
Definition crowd_flagged (a : annotation num) : bool :=
  from_option truthy false (iscrowd a).

(** The annotation has the entries the indexer reads: ["iscrowd"], and
    ["image_id"] unless it is crowd-flagged. *)
Definition indexable (a : annotation num) : Prop :=
  is_Some (iscrowd a) ∧ (crowd_flagged a = false → is_Some (image_id a)).

(** The annotations of image [k] that are not crowd-flagged, in corpus
    order. *)
Definition annotations_of (k : Z) (annos : list (annotation num))
    : list (annotation num) :=
  filter (λ a, crowd_flagged a = false ∧ image_id a = Some k) annos.

(** The number of annotations held by an index, all lists together. *)
Definition index_total (idx : gmap Z (list (annotation num))) : nat :=
  map_fold (λ _ l n, length l + n) 0 idx.

(** The entry of an index after [l] has been appended to the entry [o]. *)
Definition extend_entry (o : option (list (annotation num)))
    (l : list (annotation num)) : option (list (annotation num)) :=
  match o, l with
  | None, [] => None
  | _, _ => Some (default [] o ++ l)
  end.
End IndexerSpec.

Section ImageInfoSpec.
Context {num : Type}.

(** The image key: the file name with its extension removed. *)
Definition image_key (img : image num) : option string :=
  (λ name, (splitext name).1) <$> file_name img.

(** The image has the entry the dictionary of images reads. *)
Definition named (img : image num) : Prop := is_Some (file_name img).
End ImageInfoSpec.

Section ScalerSpec.
Context {num : Type}.
Variable ndiv : num → num → num.

(** A flat stream [x, y, x, y, ...] read as ordered (x, y) pairs. *)
Fixpoint pairs_of (l : list num) : list (num * num) :=
  match l with
  | x :: y :: l' => (x, y) :: pairs_of l'
  | _ => []
  end.

(** The normalized polygon of an annotation: the category id, then the
    rings concatenated, read as pairs, every x divided by [w] and every y
    by [h], flattened again in pair order. *)
Definition normalized_polygon (w h : num) (c : Z) (rings : list (list num))
    : list (cell num) :=
  CategoryId c
  :: flat_map (λ p, [Coord (ndiv p.1 w); Coord (ndiv p.2 h)])
              (pairs_of (concat rings)).

(** The divisor of the coordinate at position [j] of a flat point list:
    the width at the even positions (x), the height at the odd ones (y). *)
Definition axis_bound (w h : num) (j : nat) : num :=
  if Nat.even j then w else h.

(** [p] is the normalized polygon of the annotation [a]. *)
Definition polygon_of (w h : num) (a : annotation num) (p : list (cell num))
    : Prop :=
  ∃ c rings,
    category_id a = Some c ∧ segmentation a = Some rings
    ∧ p = normalized_polygon w h c rings.

(** The annotation has the entries the scaler reads. *)
Definition has_fields (a : annotation num) : Prop :=
  is_Some (category_id a) ∧ is_Some (segmentation a).

(** The flattened point list of the annotation has even, respectively odd,
    length. *)
Definition even_polygon (a : annotation num) : Prop :=
  ∃ rings,
    segmentation a = Some rings ∧ Nat.even (length (concat rings)) = true.

Definition odd_polygon (a : annotation num) : Prop :=
  ∃ rings,
    segmentation a = Some rings ∧ Nat.even (length (concat rings)) = false.

(** The annotation can be scaled: its entries are there and its point
    list pairs up. *)
Definition scalable (a : annotation num) : Prop :=
  is_Some (category_id a) ∧ even_polygon a.
End ScalerSpec.

Section BoundsSpec.
Local Open Scope Qc_scope.


End BoundsSpec.

(** A directory of per-image text labels: the directory exists and holds at
    least one [.txt] file. *)
Definition has_txt_labels (fs : filesystem) (dir : string) : bool :=
  isdir fs dir && existsb (λ f, endswith f ".txt") (listdir fs dir).

(** ** Further notions, for the results beyond the design document *)

Section IndexAlgebra.
Context {num : Type}.

(** All the annotations an index holds, list after list. *)
Definition index_contents (idx : gmap Z (list (annotation num)))
    : list (annotation num) :=
  concat ((map_to_list idx).*2).

(** Two indexes merged: an image id of both gets the list of the first
    followed by the list of the second. *)
Definition merge_index (idx1 idx2 : gmap Z (list (annotation num)))
    : gmap Z (list (annotation num)) :=
  union_with (λ l1 l2, Some (l1 ++ l2)) idx1 idx2.

(** The annotation is not crowd-flagged. *)
Definition kept (a : annotation num) : Prop := crowd_flagged a = false.

Global Instance kept_dec (a : annotation num) : Decision (kept a) :=
  decide (crowd_flagged a = false).
End IndexAlgebra.

(** The character [c] does not occur in [s]. *)
Fixpoint free_of (c : ascii) (s : string) : bool :=
  match s with
  | EmptyString => true
  | String d s' => negb (Ascii.eqb d c) && free_of c s'
  end.

(** What [splitext] can split off: nothing, or a dot followed by characters
    other than the dot and the separator. *)
Definition is_extension (ext : string) : Prop :=
  ext = EmptyString
  ∨ ∃ rest, ext = String "." rest
            ∧ free_of "." rest = true ∧ free_of "/" rest = true.

(** ** A small corpus and two file systems, for the examples *)

Module Sample.
Definition q (z : Z) : Qc := Qc_of_Z z.

(** The square of the design document's example. *)
Definition square : list (list Qc) :=
  [[q 0; q 0; q 10; q 0; q 10; q 10; q 0; q 10]].

Definition anno_cat : annotation Qc :=
  Annotation (Some 1%Z) (Some 17%Z) (Some (FInt 0)) (Some square).
Definition anno_crowd : annotation Qc :=
  Annotation (Some 1%Z) (Some 1%Z) (Some (FInt 1)) (Some [[q 1; q 1; q 9; q 9]]).
Definition anno_dog : annotation Qc :=
  Annotation (Some 2%Z) (Some 18%Z) (Some (FBool false))
    (Some [[q 0; q 0; q 5; q 0]; [q 5; q 10; q 0; q 10]]).
Definition anno_cat2 : annotation Qc :=
  Annotation (Some 1%Z) (Some 17%Z) (Some (FInt 0)) (Some [[q 2; q 3; q 4; q 5]]).

(** A polygon with three numbers, and one that leaves a 10 by 10 image. *)
Definition anno_odd : annotation Qc :=
  Annotation (Some 2%Z) (Some 3%Z) (Some (FInt 0)) (Some [[q 1; q 2; q 3]]).

(** Descriptors without the entries the build does not read. *)
Definition anno_bare : annotation Qc :=
  Annotation (Some 1%Z) None (Some (FInt 0)) None.
Definition anno_bare_crowd : annotation Qc :=
  Annotation None None (Some (FInt 1)) None.
Definition img_bare : image Qc :=
  Image None (Some "img001.jpg") None None.

Definition img1 : image Qc :=
  Image (Some 1%Z) (Some "img001.jpg") (Some (q 10)) (Some (q 10)).
Definition img2 : image Qc :=
  Image (Some 2%Z) (Some "val/img002.png") (Some (q 10)) (Some (q 10)).
Definition img1_png : image Qc :=
  Image (Some 3%Z) (Some "img001.png") (Some (q 10)) (Some (q 10)).

Definition annos : list (annotation Qc) :=
  [anno_cat; anno_crowd; anno_dog; anno_cat2].

Definition data : corpus Qc := Corpus (Some [img1; img2]) (Some annos).
Definition data_collision : corpus Qc :=
  Corpus (Some [img1; img2; img1_png]) (Some annos).
Definition data_bare : corpus Qc :=
  Corpus (Some [img_bare]) (Some [anno_bare; anno_bare_crowd]).
Definition data_no_annotations : corpus Qc := Corpus (Some [img1; img2]) None.

(** A decoder that knows one file. *)
Definition load (c : corpus Qc) (path : string) : result (corpus Qc) :=
  if String.eqb path "coco/annotations/instances_train.json" then Ok c
  else Raise FileNotFoundError.

(** A dataset with the annotation file only, and one with the annotation
    file and a directory of text labels. *)
Definition fs_json_only : filesystem :=
  FileSystem (String.eqb "coco/annotations/instances_train.json")
             (λ _, false) (λ _, []).
Definition fs_both : filesystem :=
  FileSystem (String.eqb "coco/annotations/instances_train.json")
             (String.eqb "coco/labels/train")
             (λ _, ["000001.txt"; "000002.txt"; "README.md"]).
Definition fs_empty : filesystem :=
  FileSystem (λ _, false) (λ _, false) (λ _, []).
End Sample.

(** ** More sample data *)

Module Fixture.
Definition anno_no_flag : annotation Qc :=
  Annotation (Some 1%Z) (Some 17%Z) None (Some Sample.square).
Definition anno_no_image : annotation Qc :=
  Annotation None (Some 17%Z) (Some (FBool false)) (Some Sample.square).
Definition anno_no_category : annotation Qc :=
  Annotation (Some 1%Z) None (Some (FInt 0)) (Some [[Sample.q 1; Sample.q 2; Sample.q 3]]).
Definition anno_no_segmentation : annotation Qc :=
  Annotation (Some 1%Z) (Some 17%Z) (Some (FInt 0)) None.

(** A crowd annotation as COCO writes it: no polygon to scale. *)
Definition anno_rle_crowd : annotation Qc :=
  Annotation (Some 2%Z) (Some 1%Z) (Some (FInt 1)) None.

Definition shard1 : list (annotation Qc) := [Sample.anno_cat; Sample.anno_crowd].
Definition shard2 : list (annotation Qc) := [Sample.anno_dog; Sample.anno_cat2].

Definition with_annotations (l : list (annotation Qc)) : corpus Qc :=
  Corpus (Some [Sample.img1; Sample.img2]) (Some l).

Definition img_no_width : image Qc :=
  Image (Some 1%Z) (Some "img001.jpg") (Some (Sample.q 10)) None.
Definition img_other_dir : image Qc :=
  Image (Some 4%Z) (Some "val/img001.jpg") (Some (Sample.q 10)) (Some (Sample.q 10)).
End Fixture.

(** ** Results about loops *)

Section LoopFacts.
Context {A S : Type}.
Implicit Types (body : S → A → result S) (l : list A).

(** A loop whose body raises at some element, whatever the state, does not
    end normally. *)
Lemma for_each_raises body l x :
  x ∈ l → (∀ s, ∃ e, body s x = Raise e) →
  ∀ s, ∃ e, for_each body l s = Raise e.
Proof.
  intros Hx Hbody. induction l as [|y l IH]; intros s.
  - by apply elem_of_nil in Hx.
  - simpl. apply elem_of_cons in Hx as [<-|Hx].
    + destruct (Hbody s) as [e ->]. by exists e.
    + destruct (body s y) as [s'|e]; simpl; [by apply IH | by exists e].
Qed.

(** If moreover the body can raise nothing but [e0], the loop raises
    [e0]. *)
Lemma for_each_raises_only body l x e0 :
  x ∈ l → (∀ s, body s x = Raise e0) →
  (∀ y s e, y ∈ l → body s y = Raise e → e = e0) →
  ∀ s, for_each body l s = Raise e0.
Proof.
  intros Hx Hbody Honly s.
  destruct (for_each_raises body l x Hx (λ s, ex_intro _ e0 (Hbody s)) s)
    as [e He].
  rewrite He. f_equal. clear Hx Hbody.
  revert s He. induction l as [|y l IH]; intros s He; [done|].
  simpl in He. destruct (body s y) as [s'|e'] eqn:Hy; simpl in He.
  - eapply IH; [|done]. intros z s0 e1 Hz. apply Honly. by right.
  - injection He as <-. eapply Honly; [|done]. by left.
Qed.

(** An exception that leaves the loop was raised by the body at some
    element. *)
Lemma for_each_raise_origin (body : S → A → result S) (l : list A) s e :
  for_each body l s = Raise e → ∃ x s', x ∈ l ∧ body s' x = Raise e.
Proof.
  revert s. induction l as [|y l IH]; intros s Hrun; [done|].
  simpl in Hrun. destruct (body s y) as [s1|e1] eqn:Hy; simpl in Hrun.
  - destruct (IH s1 Hrun) as (x & s' & Hx & Hb). exists x, s'.
    split; [by right | done].
  - injection Hrun as <-. exists y, s. split; [by left | done].
Qed.

(** A loop that ends normally ran its body normally at every element. *)
Lemma for_each_returns (body : S → A → result S) (l : list A) s s' :
  for_each body l s = Ok s' → Forall (λ x, ∃ s1 s2, body s1 x = Ok s2) l.
Proof.
  revert s. induction l as [|y l IH]; intros s Hrun; [constructor|].
  simpl in Hrun. destruct (body s y) as [s1|e1] eqn:Hy; simpl in Hrun; [|done].
  constructor; [by exists s, s1 | by eapply IH].
Qed.
End LoopFacts.

(** ** Results about [index_annotations_by_image] *)

Section IndexerFacts.
Context {num : Type}.
Implicit Types (m idx : gmap Z (list (annotation num))).
Implicit Types (a : annotation num) (annos : list (annotation num)).

Lemma index_step_crowd m a f :
  iscrowd a = Some f → truthy f = true → index_step m a = Ok m.
Proof. intros Hc Ht. unfold index_step. rewrite Hc. simpl. by rewrite Ht. Qed.

Lemma index_step_keep m a f k :
  iscrowd a = Some f → truthy f = false → image_id a = Some k →
  index_step m a = Ok (<[k := default [] (m !! k) ++ [a]]> m).
Proof.
  intros Hc Ht Hk. unfold index_step. rewrite Hc. simpl. rewrite Ht, Hk. simpl.
  destruct (m !! k) as [l|] eqn:Hl.
  - by rewrite Hl.
  - by rewrite lookup_insert_eq, insert_insert_eq.
Qed.

Lemma index_total_empty : index_total (∅ : gmap Z (list (annotation num))) = 0.
Proof. unfold index_total. apply map_fold_empty. Qed.

Lemma index_total_fresh m k l :
  m !! k = None → index_total (<[k := l]> m) = length l + index_total m.
Proof.
  intros Hk. unfold index_total.
  rewrite map_fold_insert_L; [done | intros; lia | done].
Qed.

Lemma index_total_update m k l0 l :
  m !! k = Some l0 →
  index_total (<[k := l]> m) + length l0 = length l + index_total m.
Proof.
  intros Hk.
  rewrite <-(insert_delete_eq m k l).
  rewrite index_total_fresh by apply lookup_delete_eq.
  unfold index_total at 2.
  rewrite (map_fold_delete_L _ _ k l0 m); [ | intros; lia | done].
  fold (index_total (delete k m)). lia.
Qed.

Lemma index_total_append m k a :
  index_total (<[k := default [] (m !! k) ++ [a]]> m) = S (index_total m).
Proof.
  destruct (m !! k) as [l0|] eqn:Hk; simpl.
  - pose proof (index_total_update m k l0 (l0 ++ [a]) Hk) as H.
    rewrite length_app in H. simpl in H. lia.
  - rewrite index_total_fresh by done. simpl. lia.
Qed.

Lemma annotations_of_crowd k a annos :
  crowd_flagged a = true → annotations_of k (a :: annos) = annotations_of k annos.
Proof.
  intros Hc. unfold annotations_of. rewrite filter_cons_False; [done|].
  intros [H _]. congruence.
Qed.

Lemma annotations_of_same k a annos :
  crowd_flagged a = false → image_id a = Some k →
  annotations_of k (a :: annos) = a :: annotations_of k annos.
Proof. intros Hc Hk. unfold annotations_of. by rewrite filter_cons_True. Qed.

Lemma annotations_of_other k k' a annos :
  image_id a = Some k' → k ≠ k' →
  annotations_of k (a :: annos) = annotations_of k annos.
Proof.
  intros Hk Hne. unfold annotations_of. rewrite filter_cons_False; [done|].
  intros [_ H]. congruence.
Qed.

(** The loop, from any index built so far: it ends without exception,
    every entry is the old entry followed by the image's non-crowd
    annotations in corpus order, and the total grows by the number of
    non-crowd annotations. *)
Lemma index_loop annos :
  Forall indexable annos →
  ∀ m, ∃ m',
    for_each index_step annos m = Ok m'
    ∧ (∀ k, m' !! k = extend_entry (m !! k) (annotations_of k annos))
    ∧ index_total m'
      = index_total m + length (filter (λ a, crowd_flagged a = false) annos).
Proof.
  induction 1 as [|a annos [[f Hf] Hid] _ IH]; intros m.
  - exists m. split; [done|]. split; [|simpl; lia].
    intros k. unfold extend_entry, annotations_of. simpl.
    destruct (m !! k); simpl; [by rewrite app_nil_r | done].
  - assert (crowd_flagged a = truthy f) as Hcf
      by (unfold crowd_flagged; by rewrite Hf).
    destruct (truthy f) eqn:Ht.
    + destruct (IH m) as (m' & Hrun & Hlk & Htot).
      exists m'. simpl. rewrite (index_step_crowd m a f) by done. simpl.
      split; [done|]. split.
      * intros k. by rewrite annotations_of_crowd.
      * rewrite filter_cons_False by congruence. done.
    + destruct (Hid Hcf) as [k0 Hk0].
      destruct (IH (<[k0 := default [] (m !! k0) ++ [a]]> m))
        as (m' & Hrun & Hlk & Htot).
      exists m'. simpl. rewrite (index_step_keep m a f k0) by done. simpl.
      split; [done|]. split.
      * intros k. rewrite Hlk. destruct (decide (k = k0)) as [->|Hne].
        -- rewrite lookup_insert_eq, annotations_of_same by done.
           unfold extend_entry.
           destruct (m !! k0); simpl; by rewrite <-?app_assoc.
        -- rewrite lookup_insert_ne by done.
           by rewrite (annotations_of_other k k0).
      * rewrite Htot, index_total_append.
        rewrite filter_cons_True by done. simpl. lia.
Qed.

Lemma index_step_returns m a m' : index_step m a = Ok m' → indexable a.
Proof.
  unfold index_step, indexable, crowd_flagged.
  destruct (iscrowd a) as [f|]; simpl; [|done].
  destruct (truthy f); intros H; (split; [by eexists|]); [done|].
  intros _. destruct (image_id a); [by eexists | done].
Qed.

Lemma index_annotations_by_image_returns (data : corpus num) annos idx :
  annotations data = Some annos → index_annotations_by_image data = Ok idx →
  Forall indexable annos.
Proof.
  intros Hdata. unfold index_annotations_by_image. rewrite Hdata. simpl.
  intros Hrun. apply for_each_returns in Hrun.
  eapply Forall_impl; [done|]. intros a (s1 & s2 & H).
  by eapply index_step_returns.
Qed.

Lemma index_annotations_by_image_ok (data : corpus num) annos :
  annotations data = Some annos → Forall indexable annos →
  ∃ idx, index_annotations_by_image data = Ok idx.
Proof.
  intros Hdata Hwf. destruct (index_loop annos Hwf ∅) as (idx & Hrun & _).
  exists idx. unfold index_annotations_by_image. by rewrite Hdata.
Qed.

Lemma length_filter_crowd annos :
  length (filter (λ a, crowd_flagged a = false) annos)
  = length annos - length (filter (λ a, crowd_flagged a = true) annos).
Proof.
  induction annos as [|a annos IH]; [done|].
  pose proof (length_filter (λ a, crowd_flagged a = true) annos).
  destruct (crowd_flagged a) eqn:Hc.
  - rewrite filter_cons_False, filter_cons_True by congruence. simpl. lia.
  - rewrite filter_cons_True, filter_cons_False by congruence. simpl. lia.
Qed.
End IndexerFacts.

(** C1. For a corpus with annotations: [index_annotations_by_image] returns
    an index when the annotations have the entries it reads; and in every
    index it returns, no crowd-flagged annotation occurs; the entry of an
    image id exists exactly when the image has an annotation that is not
    crowd-flagged, and is then the list of those annotations in corpus
    order; every annotation that is not crowd-flagged is in the list of its
    image id; and the lists hold together as many annotations as the
    corpus has, less the crowd-flagged ones. *)
Theorem index_annotations_by_image_spec {num : Type}
    (data : corpus num) (annos : list (annotation num)) :
  annotations data = Some annos →
  (Forall indexable annos → ∃ idx, index_annotations_by_image data = Ok idx)
  ∧ ∀ idx,
      index_annotations_by_image data = Ok idx →
      (∀ k l a, idx !! k = Some l → a ∈ l →
         crowd_flagged a = false ∧ image_id a = Some k ∧ a ∈ annos)
      ∧ (∀ k l, idx !! k = Some l ↔ l = annotations_of k annos ∧ l ≠ [])
      ∧ (∀ a, a ∈ annos → crowd_flagged a = false →
           ∃ k l, image_id a = Some k ∧ idx !! k = Some l ∧ a ∈ l)
      ∧ index_total idx
        = length annos - length (filter (λ a, crowd_flagged a = true) annos).
Proof.
  intros Hdata. split; [by apply index_annotations_by_image_ok|].
  intros idx Hret.
  pose proof (index_annotations_by_image_returns data annos idx Hdata Hret)
    as Hwf.
  destruct (index_loop annos Hwf ∅) as (idx' & Hrun & Hlk & Htot).
  assert (idx' = idx) as ->.
  { unfold index_annotations_by_image in Hret. rewrite Hdata in Hret.
    simpl in Hret. congruence. }
  assert (∀ k l, idx !! k = Some l ↔ l = annotations_of k annos ∧ l ≠ [])
    as Hentry.
  { intros k l. rewrite Hlk, lookup_empty. unfold extend_entry.
    destruct (annotations_of k annos) as [|a' l'] eqn:Hl; simpl.
    - split; [done | by intros [-> ?]].
    - split; [by intros [= <-] | by intros [-> _]]. }
  split; [|split; [done|split]].
  - intros k l a Hl Ha. apply Hentry in Hl as [-> _].
    unfold annotations_of in Ha. apply list_elem_of_filter in Ha.
    by destruct Ha as [[? ?] ?].
  - intros a Ha Hc.
    rewrite Forall_forall in Hwf. destruct (Hwf a Ha) as [_ Hid].
    destruct (Hid Hc) as [k Hk]. exists k, (annotations_of k annos).
    assert (a ∈ annotations_of k annos) as Hin
      by (unfold annotations_of; apply list_elem_of_filter; done).
    split; [done|]. split; [|done].
    apply Hentry. split; [done|]. intros Hnil. rewrite Hnil in Hin.
    by apply elem_of_nil in Hin.
  - rewrite Htot, index_total_empty, length_filter_crowd. lia.
Qed.

(** ** Results about [get_scaled_segmentation] *)

Section ScalerFacts.
Context {num : Type}.
Variable ndiv : num → num → num.
Implicit Types (a : annotation num) (annos : list (annotation num)).
Implicit Types (acc out : list (list (cell num))).

Lemma pair_induction (P : list num → Prop) :
  P [] → (∀ x, P [x]) → (∀ x y l, P l → P (x :: y :: l)) → ∀ l, P l.
Proof.
  intros Hnil Hone Hstep.
  assert (∀ l, P l ∧ ∀ x, P (x :: l)) as H; [|intros l; apply H].
  induction l as [|y l [IH1 IH2]]; split; auto.
Qed.

(** Reshaping, dividing by [[w, h]] and flattening again is dividing the
    pairs of the stream, x by [w] and y by [h]. *)
Lemma scaled_rows_pairs (w h : num) (l : list num) :
  map Coord (concat (divide_rows ndiv (rows_of l) [w; h]))
  = flat_map (λ p, [Coord (ndiv p.1 w); Coord (ndiv p.2 h)]) (pairs_of l).
Proof.
  induction l as [|x|x y l IH] using pair_induction; [done..|].
  simpl. by rewrite <-IH.
Qed.

Lemma scale_step_ok (h w : num) acc a c rings :
  category_id a = Some c → segmentation a = Some rings →
  Nat.even (length (concat rings)) = true →
  scale_step ndiv h w acc a = Ok (acc ++ [normalized_polygon ndiv w h c rings]).
Proof.
  intros Hc Hs He. unfold scale_step, reshape2. rewrite Hc, Hs. simpl.
  rewrite He. simpl. unfold normalized_polygon. by rewrite scaled_rows_pairs.
Qed.

Lemma scale_step_odd (h w : num) acc a :
  odd_polygon a →
  scale_step ndiv h w acc a
  = match category_id a with
    | Some _ => Raise ValueError
    | None => Raise (KeyError "category_id")
    end.
Proof.
  intros (rings & Hs & Ho). unfold scale_step, reshape2.
  destruct (category_id a); simpl; [|done]. rewrite Hs. simpl. by rewrite Ho.
Qed.

(** With its entries present the body raises nothing but [ValueError]. *)
Lemma scale_step_fields (h w : num) acc a e :
  has_fields a → scale_step ndiv h w acc a = Raise e → e = ValueError.
Proof.
  intros [[c Hc] [rings Hs]]. unfold scale_step, reshape2.
  rewrite Hc, Hs. simpl. destruct (Nat.even _); simpl; congruence.
Qed.

Lemma scale_step_returns (h w : num) acc a acc' :
  scale_step ndiv h w acc a = Ok acc' → scalable a.
Proof.
  unfold scale_step, reshape2, scalable, even_polygon.
  destruct (category_id a) as [c|]; simpl; [|done].
  destruct (segmentation a) as [rings|]; simpl; [|done].
  destruct (Nat.even (length (concat rings))) eqn:He; simpl; [|done].
  intros _. split; by eexists.
Qed.

(** The loop over scalable annotations appends one normalized polygon per
    annotation, in order. *)
Lemma scale_loop (h w : num) annos :
  Forall scalable annos →
  ∀ acc, ∃ out,
    for_each (scale_step ndiv h w) annos acc = Ok (acc ++ out)
    ∧ Forall2 (polygon_of ndiv w h) annos out.
Proof.
  induction 1 as [|a annos [[c Hc] (rings & Hs & He)] _ IH]; intros acc.
  - exists []. by rewrite app_nil_r.
  - destruct (IH (acc ++ [normalized_polygon ndiv w h c rings]))
      as (out & Hrun & Hout).
    exists (normalized_polygon ndiv w h c rings :: out). simpl.
    rewrite (scale_step_ok h w acc a c rings) by done. simpl.
    rewrite Hrun, <-app_assoc. split; [done|].
    constructor; [|done]. by exists c, rings.
Qed.

(** Position by position: the cell after the category id at position [j]
    is the [j]-th coordinate of the stream divided by the bound of its
    axis. *)
Lemma normalized_cells (w h : num) (l : list num) :
  Nat.even (length l) = true →
  flat_map (λ p, [Coord (ndiv p.1 w); Coord (ndiv p.2 h)]) (pairs_of l)
  = imap (λ j v, Coord (ndiv v (axis_bound w h j))) l.
Proof.
  induction l as [|x|x y l IH] using pair_induction; [done..|].
  intros He. simpl in He. simpl. rewrite IH by done.
  reflexivity.
Qed.

Lemma normalized_polygon_lookup (w h : num) c rings j :
  Nat.even (length (concat rings)) = true →
  normalized_polygon ndiv w h c rings !! S j
  = (λ v, Coord (ndiv v (axis_bound w h j))) <$> concat rings !! j.
Proof.
  intros He. unfold normalized_polygon. simpl.
  by rewrite normalized_cells, list_lookup_imap.
Qed.

Lemma get_scaled_segmentation_ok annos (dims : image num) (h w : num) :
  height dims = Some h → width dims = Some w →
  Forall scalable annos →
  ∃ out,
    get_scaled_segmentation ndiv (Some annos) dims = Ok (Some out)
    ∧ Forall2 (polygon_of ndiv w h) annos out.
Proof.
  intros Hh Hw Hwf. destruct (scale_loop h w annos Hwf []) as (out & Hrun & Hout).
  exists out. unfold get_scaled_segmentation. rewrite Hh, Hw. simpl.
  rewrite Hrun. done.
Qed.

Lemma get_scaled_segmentation_returns annos (dims : image num) (h w : num) out :
  height dims = Some h → width dims = Some w →
  get_scaled_segmentation ndiv (Some annos) dims = Ok (Some out) →
  Forall scalable annos ∧ Forall2 (polygon_of ndiv w h) annos out.
Proof.
  intros Hh Hw. unfold get_scaled_segmentation. rewrite Hh, Hw. simpl.
  destruct (for_each _ annos []) as [out0|e] eqn:Hrun; simpl; [|done].
  intros [= ->].
  assert (Forall scalable annos) as Hwf.
  { apply for_each_returns in Hrun. eapply Forall_impl; [done|].
    intros a (s1 & s2 & H). by eapply scale_step_returns. }
  split; [done|].
  destruct (scale_loop h w annos Hwf []) as (out' & Hrun' & Hout).
  simpl in Hrun'. congruence.
Qed.
End ScalerFacts.

(** C2. For image dimensions with height [h] and width [w],
    [get_scaled_segmentation] returns for every list of annotations whose
    point lists pair up, and what it returns is one list per annotation, in
    order, each the category id followed by the annotation's rings
    concatenated, read as (x, y) pairs, x divided by [w] and y by [h],
    flattened in pair order.  In particular the square
    [[0,0,10,0,10,10,0,10]] in a 10 by 10 image becomes
    [[category_id, 0, 0, 1, 0, 1, 1, 0, 1]]. *)
Theorem get_scaled_segmentation_normalizes :
  (∀ (num : Type) (ndiv : num → num → num)
     (annos : list (annotation num)) (dims : image num) (h w : num),
     height dims = Some h → width dims = Some w →
     (Forall scalable annos →
      ∃ out, get_scaled_segmentation ndiv (Some annos) dims = Ok (Some out))
     ∧ (∀ out,
          get_scaled_segmentation ndiv (Some annos) dims = Ok (Some out) →
          Forall2 (polygon_of ndiv w h) annos out))
  ∧ (∀ (c : Z) (iid : option Z) (crowd : option flag)
       (imgid : option Z) (name : option string),
       let ten := Qc_of_Z 10 in
       let zero := Qc_of_Z 0 in
       let one := Qc_of_Z 1 in
       get_scaled_segmentation Qcdiv
         (Some [Annotation iid (Some c) crowd
                  (Some [[zero; zero; ten; zero; ten; ten; zero; ten]])])
         (Image imgid name (Some ten) (Some ten))
       = Ok (Some [[CategoryId c; Coord zero; Coord zero; Coord one; Coord zero;
                    Coord one; Coord one; Coord zero; Coord one]])).
Proof.
  split.
  - intros num ndiv annos dims h w Hh Hw. split.
    + intros Hwf.
      destruct (get_scaled_segmentation_ok ndiv annos dims h w Hh Hw Hwf)
        as (out & Hrun & _).
      by exists out.
    + intros out Hrun.
      by apply (get_scaled_segmentation_returns ndiv annos dims h w out).
  - intros c iid crowd imgid name ten zero one.
    assert (Qcdiv zero ten = zero) as H0 by (apply Qc_is_canon; reflexivity).
    assert (Qcdiv ten ten = one) as H1 by (apply Qc_is_canon; reflexivity).
    unfold get_scaled_segmentation, scale_step, reshape2. simpl.
    by rewrite H0, H1.
Qed.

(** C4. For image dimensions with height and width,
    [get_scaled_segmentation] returns for every list of scalable
    annotations, and what it returns is as long as the input, its i-th
    element being the normalized polygon of the i-th annotation. *)
Theorem get_scaled_segmentation_order {num : Type} (ndiv : num → num → num)
    (annos : list (annotation num)) (dims : image num) (h w : num) :
  height dims = Some h → width dims = Some w →
  (Forall scalable annos →
   ∃ out, get_scaled_segmentation ndiv (Some annos) dims = Ok (Some out))
  ∧ ∀ out,
      get_scaled_segmentation ndiv (Some annos) dims = Ok (Some out) →
      length out = length annos
      ∧ ∀ i a, annos !! i = Some a →
          ∃ p, out !! i = Some p ∧ polygon_of ndiv w h a p.
Proof.
  intros Hh Hw. split.
  - intros Hwf.
    destruct (get_scaled_segmentation_ok ndiv annos dims h w Hh Hw Hwf)
      as (out & Hrun & _).
    by exists out.
  - intros out Hrun.
    destruct (get_scaled_segmentation_returns ndiv annos dims h w out Hh Hw Hrun)
      as [_ Hout].
    split.
    + symmetry. by eapply Forall2_length.
    + intros i a Ha. by eapply Forall2_lookup_l.
Qed.

(** C6. When some annotation of the list has a flattened point list of odd
    length, [get_scaled_segmentation] raises: it returns no output, neither
    without that annotation nor with its coordinates cut short.  When the
    dimensions and the annotations have all their entries, what it raises
    is the [ValueError] of the reshape. *)
Theorem get_scaled_segmentation_odd {num : Type} (ndiv : num → num → num)
    (annos : list (annotation num)) (dims : image num) (a : annotation num) :
  a ∈ annos → odd_polygon a →
  (∃ e, get_scaled_segmentation ndiv (Some annos) dims = Raise e)
  ∧ (is_Some (height dims) → is_Some (width dims) → Forall has_fields annos →
     get_scaled_segmentation ndiv (Some annos) dims = Raise ValueError).
Proof.
  intros Ha Hodd. split.
  - unfold get_scaled_segmentation.
    destruct (height dims) as [h|]; simpl; [|by eexists].
    destruct (width dims) as [w|]; simpl; [|by eexists].
    assert (∀ s, ∃ e, scale_step ndiv h w s a = Raise e) as Hbody.
    { intros s. rewrite scale_step_odd by done.
      destruct (category_id a); by eexists. }
    destruct (for_each_raises (scale_step ndiv h w) annos a Ha Hbody [])
      as [e He].
    rewrite He. by exists e.
  - intros [h Hh] [w Hw] Hf. unfold get_scaled_segmentation.
    rewrite Hh, Hw. simpl.
    rewrite Forall_forall in Hf.
    rewrite (for_each_raises_only (scale_step ndiv h w) annos a ValueError);
      [done | done | | ].
    + intros s. rewrite scale_step_odd by done.
      destruct (Hf a Ha) as [[c ->] _]. done.
    + intros y s e Hy. apply scale_step_fields. by apply Hf.
Qed.

(** C7. Without annotations ([None]) [get_scaled_segmentation] returns
    [None], whatever the image dimensions are. *)
Theorem get_scaled_segmentation_none {num : Type} (ndiv : num → num → num)
    (dims : image num) :
  get_scaled_segmentation ndiv None dims = Ok None.
Proof. reflexivity. Qed.

(** ** The bound on normalized values, for exact division *)

Section BoundsFacts.
Local Open Scope Qc_scope.


End BoundsFacts.


(** ** Results about [create_image_info_dict] *)

Section ImageInfoFacts.
Context {num : Type}.
Implicit Types (d info : gmap string (image num)).
Implicit Types (img : image num) (imgs : list (image num)).

Lemma image_info_step_ok d img k :
  image_key img = Some k → image_info_step d img = Ok (<[k := img]> d).
Proof.
  unfold image_key, image_info_step. destruct (file_name img); [|done].
  simpl. by intros [= <-].
Qed.

Lemma image_info_step_returns d img d' :
  image_info_step d img = Ok d' → named img.
Proof.
  unfold image_info_step, named. destruct (file_name img); [by eexists | done].
Qed.

Lemma named_key img : named img → is_Some (image_key img).
Proof. intros [name H]. unfold image_key. rewrite H. by eexists. Qed.

(** The comprehension: it ends without exception, and a key maps to the
    last image of the list with that key, or to what it mapped to before
    when the list has none. *)
Lemma image_info_loop imgs :
  Forall named imgs →
  ∀ d, ∃ d',
    for_each image_info_step imgs d = Ok d'
    ∧ ∀ k, d' !! k
           = match last (filter (λ img, image_key img = Some k) imgs) with
             | Some img => Some img
             | None => d !! k
             end.
Proof.
  induction 1 as [|img imgs Hn _ IH]; intros d.
  - exists d. by split.
  - destruct (named_key img Hn) as [k0 Hk0].
    destruct (IH (<[k0 := img]> d)) as (d' & Hrun & Hlk).
    exists d'. simpl. rewrite (image_info_step_ok d img k0) by done. simpl.
    split; [done|]. intros k. rewrite Hlk.
    destruct (decide (k = k0)) as [->|Hne].
    + rewrite (filter_cons_True _ img) by done.
      rewrite lookup_insert_eq.
      by destruct (filter _ imgs) as [|? ?] using rev_ind;
        rewrite ?app_comm_cons, ?last_snoc.
    + rewrite filter_cons_False by congruence.
      by rewrite lookup_insert_ne.
Qed.

(** Without two images of one key the dictionary grows by one entry per
    image. *)
Lemma image_info_size imgs :
  Forall named imgs → NoDup (image_key <$> imgs) →
  ∀ d d', (∀ img k, img ∈ imgs → image_key img = Some k → d !! k = None) →
    for_each image_info_step imgs d = Ok d' →
    size d' = size d + length imgs.
Proof.
  induction 1 as [|img imgs Hn _ IH]; intros Hnd d d' Hfresh Hrun.
  - injection Hrun as <-. simpl. lia.
  - destruct (named_key img Hn) as [k0 Hk0].
    simpl in Hrun. rewrite (image_info_step_ok d img k0) in Hrun by done.
    simpl in Hrun. rewrite fmap_cons in Hnd. apply NoDup_cons in Hnd as [Hk Hnd].
    rewrite (IH Hnd (<[k0 := img]> d) d'); [ | | done].
    + rewrite map_size_insert_None; [simpl; lia|].
      eapply Hfresh; [by left | done].
    + intros img' k Hin Hkey. rewrite lookup_insert_ne.
      * eapply Hfresh; [by right | done].
      * intros <-. apply Hk. rewrite Hk0, <-Hkey.
        by apply list_elem_of_fmap_2.
Qed.
End ImageInfoFacts.

(** C8. For a corpus with images and annotations,
    [create_image_info_dict] returns when the annotations are indexable and
    the images named; and in every image dictionary it returns, every key
    is the file name of one of the images with its extension removed, and
    maps to that image; every image's key is a key of the dictionary; when
    no two images have the same key the dictionary has as many keys as the
    corpus has images; and when several images have the same key the key
    maps to the last of them. *)
Theorem create_image_info_dict_keys {num : Type}
    (json_load : string → result (corpus num)) (labels_path : string)
    (data : corpus num) (annos : list (annotation num))
    (imgs : list (image num)) :
  json_load labels_path = Ok data →
  annotations data = Some annos → images data = Some imgs →
  (Forall indexable annos → Forall named imgs →
   ∃ idx info, create_image_info_dict json_load labels_path = Ok (idx, info))
  ∧ ∀ idx info,
      create_image_info_dict json_load labels_path = Ok (idx, info) →
      (∀ k img, info !! k = Some img →
         img ∈ imgs
         ∧ ∃ name, file_name img = Some name ∧ k = (splitext name).1)
      ∧ (∀ img, img ∈ imgs →
           ∃ k, image_key img = Some k ∧ is_Some (info !! k))
      ∧ (NoDup (image_key <$> imgs) → size info = length imgs)
      ∧ (∀ l1 img l2 k,
           imgs = l1 ++ img :: l2 → image_key img = Some k →
           Forall (λ img', image_key img' ≠ Some k) l2 →
           info !! k = Some img).
Proof.
  intros Hload Hannos Himgs. unfold create_image_info_dict.
  rewrite Hload. simpl. split.
  { intros Hidx Hnamed.
    destruct (index_annotations_by_image_ok data annos Hannos Hidx)
      as (idx & ->).
    destruct (image_info_loop imgs Hnamed ∅) as (info & Hrun & _).
    exists idx, info. simpl. rewrite Himgs. simpl. by rewrite Hrun. }
  intros idx info.
  destruct (index_annotations_by_image data) as [idx0|e0]; simpl; [|done].
  rewrite Himgs. simpl.
  destruct (for_each image_info_step imgs ∅) as [info0|e1] eqn:Hret;
    simpl; [|done].
  intros [= -> ->].
  assert (Forall named imgs) as Hnamed.
  { apply for_each_returns in Hret. eapply Forall_impl; [done|].
    intros img (s1 & s2 & H). by eapply image_info_step_returns. }
  destruct (image_info_loop imgs Hnamed ∅) as (info' & Hrun & Hlk).
  assert (info' = info) as -> by congruence.
  split; [|split; [|split]].
  - intros k img Hk. rewrite Hlk, lookup_empty in Hk.
    destruct (last _) as [img'|] eqn:Hlast; [|done]. injection Hk as ->.
    apply last_Some in Hlast as [l' Hl'].
    assert (img ∈ filter (λ img, image_key img = Some k) imgs) as Hin
      by (rewrite Hl'; set_solver).
    apply list_elem_of_filter in Hin as [Hkey Hin]. split; [done|].
    unfold image_key in Hkey. destruct (file_name img) as [name|]; [|done].
    exists name. split; [done|]. simpl in Hkey. congruence.
  - intros img Hin. rewrite Forall_forall in Hnamed.
    destruct (named_key img (Hnamed img Hin)) as [k Hk].
    exists k. split; [done|]. rewrite Hlk.
    assert (img ∈ filter (λ img, image_key img = Some k) imgs) as Hf
      by (by apply list_elem_of_filter).
    destruct (filter _ imgs) as [|x l _] using rev_ind.
    + by apply elem_of_nil in Hf.
    + rewrite last_snoc. by eexists.
  - intros Hnd.
    rewrite (image_info_size imgs Hnamed Hnd ∅ info);
      [by rewrite map_size_empty| |done].
    intros. apply lookup_empty.
  - intros l1 img l2 k -> Hkey Hl2. rewrite Hlk.
    rewrite filter_app, (filter_cons_True _ img) by done.
    assert (filter (λ img, image_key img = Some k) l2 = []) as ->.
    { clear -Hl2. induction Hl2 as [|img' l2 Hne _ IH]; [done|].
      by rewrite filter_cons_False. }
    by rewrite last_snoc.
Qed.

Section BuildFailures.
Context {num : Type}.
Implicit Types (a : annotation num) (m : gmap Z (list (annotation num))).

(** What the body of the indexing loop can raise. *)
Lemma index_step_raises m a e :
  index_step m a = Raise e → e = KeyError "iscrowd" ∨ e = KeyError "image_id".
Proof.
  unfold index_step. destruct (iscrowd a) as [f|]; simpl; [|by left; congruence].
  destruct (truthy f); [done|].
  destruct (image_id a); simpl; [done | by right; congruence].
Qed.

Lemma index_step_not_indexable m a :
  ¬ indexable a → ∃ e, index_step m a = Raise e.
Proof.
  intros Hn. unfold index_step.
  destruct (iscrowd a) as [f|] eqn:Hf; simpl; [|by eexists].
  destruct (truthy f) eqn:Ht.
  - destruct Hn. split; [by eexists|]. unfold crowd_flagged. rewrite Hf. simpl.
    congruence.
  - destruct (image_id a) eqn:Hid; simpl; [|by eexists].
    destruct Hn. split; by eexists.
Qed.

Lemma image_info_step_raises (d : gmap string (image num)) (img : image num) e :
  image_info_step d img = Raise e → e = KeyError "file_name".
Proof.
  unfold image_info_step. destruct (file_name img); simpl; congruence.
Qed.
End BuildFailures.

(** C5, as the code has it.  The build reads six entries and raises
    [KeyError] at the first that is absent, returning no index: the
    ["annotations"] key; the ["iscrowd"] entry of an annotation and, when
    that is not true, its ["image_id"]; the ["images"] key; the
    ["file_name"] of an image.  It reads no other entry: a corpus whose
    annotations are indexable and whose images are named builds, whatever
    else its descriptors lack. *)
Theorem create_image_info_dict_failures {num : Type}
    (json_load : string → result (corpus num)) (labels_path : string)
    (data : corpus num) :
  json_load labels_path = Ok data →
  (annotations data = None →
     create_image_info_dict json_load labels_path
     = Raise (KeyError "annotations"))
  ∧ (∀ annos a,
       annotations data = Some annos → a ∈ annos → ¬ indexable a →
       create_image_info_dict json_load labels_path = Raise (KeyError "iscrowd")
       ∨ create_image_info_dict json_load labels_path
         = Raise (KeyError "image_id"))
  ∧ (∀ annos,
       annotations data = Some annos → Forall indexable annos →
       images data = None →
       create_image_info_dict json_load labels_path = Raise (KeyError "images"))
  ∧ (∀ annos imgs img,
       annotations data = Some annos → Forall indexable annos →
       images data = Some imgs → img ∈ imgs → file_name img = None →
       create_image_info_dict json_load labels_path
       = Raise (KeyError "file_name"))
  ∧ (∀ annos imgs,
       annotations data = Some annos → Forall indexable annos →
       images data = Some imgs → Forall named imgs →
       ∃ idx info,
         create_image_info_dict json_load labels_path = Ok (idx, info)).
Proof.
  intros Hload. unfold create_image_info_dict. rewrite Hload. simpl.
  split; [|split; [|split; [|split]]].
  - intros Ha. unfold index_annotations_by_image. by rewrite Ha.
  - intros annos a Hannos Ha Hn. unfold index_annotations_by_image.
    rewrite Hannos. simpl.
    destruct (for_each_raises index_step annos a Ha
                (λ s, index_step_not_indexable s a Hn) ∅) as [e He].
    rewrite He. simpl.
    apply for_each_raise_origin in He as (x & s' & _ & Hx).
    apply index_step_raises in Hx as [-> | ->]; [by left | by right].
  - intros annos Hannos Hidx Himgs.
    destruct (index_annotations_by_image_ok data annos Hannos Hidx)
      as (idx & ->).
    simpl. by rewrite Himgs.
  - intros annos imgs img Hannos Hidx Himgs Himg Hname.
    destruct (index_annotations_by_image_ok data annos Hannos Hidx)
      as (idx & ->).
    simpl. rewrite Himgs. simpl.
    rewrite (for_each_raises_only image_info_step imgs img (KeyError "file_name"));
      [done | done | | ].
    + intros s. unfold image_info_step. by rewrite Hname.
    + intros y s e _. apply image_info_step_raises.
  - intros annos imgs Hannos Hidx Himgs Hnamed.
    destruct (index_annotations_by_image_ok data annos Hannos Hidx)
      as (idx & ->).
    destruct (image_info_loop imgs Hnamed ∅) as (info & Hrun & _).
    exists idx, info. simpl. rewrite Himgs. simpl. by rewrite Hrun.
Qed.

(** ** Results about [find_labels_path] *)

Lemma filter_txt_nil (l : list string) :
  List.filter (λ f, endswith f ".txt") l = []
  ↔ existsb (λ f, endswith f ".txt") l = false.
Proof.
  induction l as [|f l IH]; simpl; [done|].
  destruct (endswith f ".txt"); simpl; [split; discriminate | done].
Qed.

Lemma find_labels_path_cases (fs : filesystem) (dataset_path phase_name : string) :
  find_labels_path fs dataset_path phase_name
  = if has_txt_labels fs (txt_labels_path dataset_path phase_name)
    then Ok (txt_labels_path dataset_path phase_name, "txt")
    else Raise FileNotFoundError.
Proof.
  unfold find_labels_path, has_txt_labels. rewrite andb_false_r.
  destruct (isdir fs _); simpl; [|done].
  destruct (List.filter _ _) as [|f l] eqn:Hf.
  - apply filter_txt_nil in Hf. by rewrite Hf.
  - destruct (existsb _ _) eqn:He; [done|].
    apply filter_txt_nil in He. congruence.
Qed.

(** C9. When neither the annotation file of the phase nor a directory of
    text labels for it exists (no directory, or one without a [.txt]
    file), [find_labels_path] raises [FileNotFoundError]; and when it
    returns, it returns a location with the format tag ["json"] or
    ["txt"]. *)
Theorem find_labels_path_not_found (fs : filesystem)
    (dataset_path phase_name : string) :
  (isfile fs (json_labels_path dataset_path phase_name) = false →
   has_txt_labels fs (txt_labels_path dataset_path phase_name) = false →
   find_labels_path fs dataset_path phase_name = Raise FileNotFoundError)
  ∧ (isfile fs (json_labels_path dataset_path phase_name) = false →
     isdir fs (txt_labels_path dataset_path phase_name) = false →
     find_labels_path fs dataset_path phase_name = Raise FileNotFoundError)
  ∧ (∀ location format_tag,
       find_labels_path fs dataset_path phase_name = Ok (location, format_tag) →
       format_tag = "json" ∨ format_tag = "txt").
Proof.
  rewrite find_labels_path_cases. split; [|split].
  - by intros _ ->.
  - intros _ Hdir. unfold has_txt_labels. by rewrite Hdir.
  - intros location format_tag. destruct (has_txt_labels _ _); [|done].
    intros [= _ <-]. by right.
Qed.

(** C10. Whenever [find_labels_path] returns, the location is the directory
    of text labels and the format tag is ["txt"], never ["json"]; it
    returns exactly when that directory exists and holds a [.txt] file, and
    raises [FileNotFoundError] otherwise, also when the annotation file of
    the phase exists. *)
Theorem find_labels_path_txt_only (fs : filesystem)
    (dataset_path phase_name : string) :
  (∀ location format_tag,
     find_labels_path fs dataset_path phase_name = Ok (location, format_tag) →
     format_tag = "txt" ∧ format_tag ≠ "json"
     ∧ location = txt_labels_path dataset_path phase_name)
  ∧ (isfile fs (json_labels_path dataset_path phase_name) = true →
     has_txt_labels fs (txt_labels_path dataset_path phase_name) = false →
     find_labels_path fs dataset_path phase_name = Raise FileNotFoundError)
  ∧ (has_txt_labels fs (txt_labels_path dataset_path phase_name) = true ↔
     ∃ r, find_labels_path fs dataset_path phase_name = Ok r).
Proof.
  rewrite find_labels_path_cases. split; [|split].
  - intros location format_tag. destruct (has_txt_labels _ _); [|done].
    by intros [= <- <-].
  - by intros _ ->.
  - destruct (has_txt_labels _ _); split; try done.
    + by eexists.
    + by intros [r Hr].
Qed.

(** ** The results at the sample corpus *)

Lemma index_annotations_by_image_spec_witness :
  ∃ idx,
    index_annotations_by_image Sample.data = Ok idx
    ∧ idx !! 1%Z = Some [Sample.anno_cat; Sample.anno_cat2]
    ∧ idx !! 2%Z = Some [Sample.anno_dog]
    ∧ index_total idx = 3.
Proof.
  destruct (index_annotations_by_image_spec Sample.data Sample.annos eq_refl)
    as [Hret Hspec].
  destruct Hret as [idx Hrun]; [repeat constructor; by eexists|].
  destruct (Hspec idx Hrun) as (_ & Hentry & _ & Htot).
  exists idx. split; [exact Hrun|]. split; [|split].
  - apply Hentry. split; [reflexivity | discriminate].
  - apply Hentry. split; [reflexivity | discriminate].
  - rewrite Htot. reflexivity.
Defined.

Lemma get_scaled_segmentation_normalizes_witness :
  ∃ out,
    get_scaled_segmentation Qcdiv
      (Some [Sample.anno_cat; Sample.anno_dog; Sample.anno_cat2]) Sample.img1
    = Ok (Some out).
Proof.
  apply (proj1 get_scaled_segmentation_normalizes Qc Qcdiv _ Sample.img1
           (Sample.q 10) (Sample.q 10)).
  - reflexivity.
  - reflexivity.
  - repeat constructor; by eexists.
Defined.

Lemma get_scaled_segmentation_order_witness :
  ∃ out,
    get_scaled_segmentation Qcdiv
      (Some [Sample.anno_cat; Sample.anno_dog; Sample.anno_cat2]) Sample.img1
    = Ok (Some out)
    ∧ length out = 3
    ∧ ∃ p, out !! 1 = Some p
           ∧ polygon_of Qcdiv (Sample.q 10) (Sample.q 10) Sample.anno_dog p.
Proof.
  destruct (get_scaled_segmentation_order Qcdiv
              [Sample.anno_cat; Sample.anno_dog; Sample.anno_cat2] Sample.img1
              (Sample.q 10) (Sample.q 10) eq_refl eq_refl)
    as [Hret Hspec].
  destruct Hret as [out Hrun]; [repeat constructor; by eexists|].
  destruct (Hspec out Hrun) as [Hlen Hith].
  exists out. split; [exact Hrun|]. split; [exact Hlen|].
  apply (Hith 1 Sample.anno_dog). reflexivity.
Defined.

Lemma get_scaled_segmentation_odd_witness :
  get_scaled_segmentation Qcdiv
    (Some [Sample.anno_cat; Sample.anno_odd; Sample.anno_dog]) Sample.img1
  = Raise ValueError.
Proof.
  apply (get_scaled_segmentation_odd Qcdiv _ Sample.img1 Sample.anno_odd).
  - right. left.
  - eexists. split; reflexivity.
  - by eexists.
  - by eexists.
  - repeat constructor; by eexists.
Defined.


Lemma create_image_info_dict_keys_witness :
  ∃ idx info,
    create_image_info_dict (Sample.load Sample.data_collision)
      "coco/annotations/instances_train.json"
    = Ok (idx, info)
    ∧ info !! "img001" = Some Sample.img1_png
    ∧ is_Some (info !! "val/img002").
Proof.
  destruct (create_image_info_dict_keys (Sample.load Sample.data_collision)
              "coco/annotations/instances_train.json" Sample.data_collision
              Sample.annos [Sample.img1; Sample.img2; Sample.img1_png]
              eq_refl eq_refl eq_refl)
    as [Hret Hspec].
  destruct Hret as (idx & info & Hrun); [repeat constructor; by eexists..|].
  destruct (Hspec idx info Hrun) as (_ & Hdom & _ & Hlast).
  exists idx, info. split; [exact Hrun|]. split.
  - apply (Hlast [Sample.img1; Sample.img2] Sample.img1_png []);
      [reflexivity | reflexivity | constructor].
  - destruct (Hdom Sample.img2) as (k & Hk & Hin).
    + right. left.
    + injection Hk as <-. exact Hin.
Defined.

(** C5 as the design document states it fails: a corpus whose descriptors
    lack ["category_id"], ["segmentation"], ["height"], ["width"] and
    ["id"], and whose crowd annotation lacks ["image_id"], builds. *)
Lemma create_image_info_dict_builds_bare :
  Sample.data_bare
  = Corpus
      (Some [Image None (Some "img001.jpg") None None])
      (Some [Annotation (Some 1%Z) None (Some (FInt 0)) None;
             Annotation None None (Some (FInt 1)) None])
  ∧ create_image_info_dict (Sample.load Sample.data_bare)
      "coco/annotations/instances_train.json"
    = Ok ({[1%Z := [Sample.anno_bare]]}, {["img001" := Sample.img_bare]}).
Proof. split; reflexivity. Qed.

Lemma create_image_info_dict_failures_witness :
  create_image_info_dict (Sample.load Sample.data_no_annotations)
    "coco/annotations/instances_train.json"
  = Raise (KeyError "annotations").
Proof.
  apply (create_image_info_dict_failures (Sample.load Sample.data_no_annotations)
           "coco/annotations/instances_train.json" Sample.data_no_annotations).
  - reflexivity.
  - reflexivity.
Defined.

Lemma find_labels_path_not_found_witness :
  find_labels_path Sample.fs_empty "coco" "train" = Raise FileNotFoundError.
Proof.
  apply (find_labels_path_not_found Sample.fs_empty "coco" "train");
    reflexivity.
Defined.

Lemma find_labels_path_txt_only_witness :
  find_labels_path Sample.fs_json_only "coco" "train" = Raise FileNotFoundError.
Proof.
  apply (find_labels_path_txt_only Sample.fs_json_only "coco" "train");
    reflexivity.
Defined.

(** ** Examples *)

Example find_labels_path_both :
  find_labels_path Sample.fs_both "coco" "train" = Ok ("coco/labels/train", "txt").
Proof. reflexivity. Qed.

Example scale_square (c : Z) :
  get_scaled_segmentation Qcdiv
    (Some [Annotation (Some 1%Z) (Some c) (Some (FInt 0)) (Some Sample.square)])
    Sample.img1
  = Ok (Some [normalized_polygon Qcdiv (Sample.q 10) (Sample.q 10) c Sample.square]).
Proof. reflexivity. Qed.

Example scale_empty :
  get_scaled_segmentation Qcdiv (Some []) Sample.img1 = Ok (Some []).
Proof. reflexivity. Qed.

Example scale_no_height :
  get_scaled_segmentation Qcdiv (Some []) Sample.img_bare
  = Raise (KeyError "height").
Proof. reflexivity. Qed.

Example scale_bare :
  get_scaled_segmentation Qcdiv (Some [Sample.anno_bare]) Sample.img1
  = Raise (KeyError "category_id").
Proof. reflexivity. Qed.

Example image_key_collision :
  image_key Sample.img1 = Some "img001" ∧ image_key Sample.img1_png = Some "img001".
Proof. split; reflexivity. Qed.

Example splitext_jpg : splitext "img001.jpg" = ("img001", ".jpg").
Proof. reflexivity. Qed.
Example splitext_dir : splitext "a.b/c" = ("a.b/c", EmptyString).
Proof. reflexivity. Qed.
Example splitext_hidden : splitext "dir/.bashrc" = ("dir/.bashrc", EmptyString).
Proof. reflexivity. Qed.
Example splitext_two : splitext "dir/x.tar.gz" = ("dir/x.tar", ".gz").
Proof. reflexivity. Qed.
Example splitext_dots : splitext "...a.b" = ("...a", ".b").
Proof. reflexivity. Qed.
Example join1 : path_join "data/coco" ["labels"; "train"] = "data/coco/labels/train".
Proof. reflexivity. Qed.
Example join2 : path_join "data/" ["labels"; "/abs"] = "/abs".
Proof. reflexivity. Qed.
Example join3 : path_join EmptyString ["labels"; "val"] = "labels/val".
Proof. reflexivity. Qed.
Example ends1 : endswith "a.txt" ".txt" = true. Proof. reflexivity. Qed.
Example ends2 : endswith "txt" ".txt" = false. Proof. reflexivity. Qed.
Example ends3 : endswith "a.txt.bak" ".txt" = false. Proof. reflexivity. Qed.

(** ** Further results about [index_annotations_by_image] *)

Section IndexerMore.
Context {num : Type}.
Implicit Types (m idx : gmap Z (list (annotation num))).
Implicit Types (a : annotation num) (annos : list (annotation num)).

(** A loop over a list in two parts is the loop over the first part followed
    by the loop over the second. *)
Lemma for_each_app {A S} (body : S → A → result S) (l1 l2 : list A) s :
  for_each body (l1 ++ l2) s
  = bind (for_each body l1 s) (for_each body l2).
Proof.
  revert s. induction l1 as [|x l1 IH]; intros s; [done|].
  simpl. destruct (body s x); simpl; [apply IH | done].
Qed.

Lemma index_lookup (data : corpus num) annos idx :
  annotations data = Some annos → index_annotations_by_image data = Ok idx →
  ∀ k, idx !! k = extend_entry None (annotations_of k annos).
Proof.
  intros Hdata Hret.
  pose proof (index_annotations_by_image_returns data annos idx Hdata Hret)
    as Hwf.
  destruct (index_loop annos Hwf ∅) as (idx' & Hrun & Hlk & _).
  unfold index_annotations_by_image in Hret. rewrite Hdata in Hret.
  simpl in Hret. assert (idx' = idx) as -> by congruence.
  intros k. by rewrite Hlk, lookup_empty.
Qed.

Lemma index_contents_append m k a :
  index_contents (<[k := default [] (m !! k) ++ [a]]> m)
  ≡ₚ a :: index_contents m.
Proof.
  unfold index_contents. destruct (m !! k) as [l0|] eqn:Hk; simpl.
  - rewrite <-(insert_delete_eq m).
    rewrite map_to_list_insert by apply lookup_delete_eq.
    rewrite <-(map_to_list_delete m k l0 Hk). simpl.
    rewrite <-app_assoc. simpl. by rewrite <-Permutation_middle.
  - by rewrite map_to_list_insert.
Qed.

Lemma index_loop_contents annos :
  ∀ m m', for_each index_step annos m = Ok m' →
    index_contents m' ≡ₚ index_contents m ++ filter kept annos.
Proof.
  induction annos as [|a annos IH]; intros m m' Hrun.
  - injection Hrun as <-. by rewrite app_nil_r.
  - simpl in Hrun. destruct (index_step m a) as [m1|e] eqn:Hstep;
      simpl in Hrun; [|done].
    pose proof (index_step_returns _ _ _ Hstep) as [[f Hf] Hid].
    assert (crowd_flagged a = truthy f) as Hcf
      by (unfold crowd_flagged; by rewrite Hf).
    rewrite (IH _ _ Hrun). destruct (truthy f) eqn:Ht.
    + rewrite (index_step_crowd m a f) in Hstep by done.
      injection Hstep as <-. rewrite filter_cons_False; [done|].
      unfold kept. congruence.
    + destruct (Hid Hcf) as [k Hk].
      rewrite (index_step_keep m a f k) in Hstep by done.
      injection Hstep as <-. rewrite index_contents_append.
      rewrite (filter_cons_True _ a) by done.
      by rewrite <-Permutation_middle.
Qed.

Lemma index_step_filter m a :
  crowd_flagged a = true → index_step m a = Ok m.
Proof.
  unfold crowd_flagged. destruct (iscrowd a) as [f|] eqn:Hf; simpl; [|done].
  intros Ht. by apply (index_step_crowd m a f).
Qed.

Lemma index_loop_filter annos :
  ∀ m, for_each index_step (filter kept annos) m = for_each index_step annos m.
Proof.
  induction annos as [|a annos IH]; intros m; [done|].
  destruct (crowd_flagged a) eqn:Hc.
  - rewrite filter_cons_False by (unfold kept; congruence).
    simpl. rewrite index_step_filter by done. simpl. apply IH.
  - rewrite filter_cons_True by done. simpl.
    destruct (index_step m a); simpl; [apply IH | done].
Qed.
End IndexerMore.

(** X1. Indexing a corpus whose annotation list is one list followed by
    another gives the two indexes merged, the lists of an image id joined
    in that order; and it returns exactly when indexing either list
    does. *)
Theorem index_annotations_by_image_app {num : Type}
    (data1 data2 data : corpus num) (l1 l2 : list (annotation num)) :
  annotations data1 = Some l1 → annotations data2 = Some l2 →
  annotations data = Some (l1 ++ l2) →
  (∀ idx1 idx2,
     index_annotations_by_image data1 = Ok idx1 →
     index_annotations_by_image data2 = Ok idx2 →
     index_annotations_by_image data = Ok (merge_index idx1 idx2))
  ∧ (∀ idx,
       index_annotations_by_image data = Ok idx →
       ∃ idx1 idx2,
         index_annotations_by_image data1 = Ok idx1
         ∧ index_annotations_by_image data2 = Ok idx2).
Proof.
  intros H1 H2 H12. split.
  - intros idx1 idx2 Hr1 Hr2.
    pose proof (index_annotations_by_image_returns _ _ _ H1 Hr1) as Hw1.
    pose proof (index_annotations_by_image_returns _ _ _ H2 Hr2) as Hw2.
    destruct (index_annotations_by_image_ok data (l1 ++ l2) H12) as [idx Hr].
    { by apply Forall_app. }
    rewrite Hr. f_equal. apply map_eq. intros k.
    unfold merge_index. rewrite lookup_union_with.
    rewrite (index_lookup data _ idx H12 Hr), (index_lookup data1 _ idx1 H1 Hr1),
      (index_lookup data2 _ idx2 H2 Hr2).
    unfold annotations_of. rewrite filter_app. unfold extend_entry.
    destruct (filter _ l1), (filter _ l2); simpl; by rewrite ?app_nil_r.
  - intros idx Hr.
    pose proof (index_annotations_by_image_returns _ _ _ H12 Hr) as Hw.
    apply Forall_app in Hw as [Hw1 Hw2].
    destruct (index_annotations_by_image_ok data1 l1 H1 Hw1) as [idx1 Hr1].
    destruct (index_annotations_by_image_ok data2 l2 H2 Hw2) as [idx2 Hr2].
    by exists idx1, idx2.
Qed.

(** X2. Crowd-flagged annotations do not count: the corpus without them is
    indexed to the same result, index or exception. *)
Theorem index_annotations_by_image_crowd_blind {num : Type}
    (data data' : corpus num) (annos : list (annotation num)) :
  annotations data = Some annos →
  annotations data' = Some (filter kept annos) →
  index_annotations_by_image data' = index_annotations_by_image data.
Proof.
  intros H H'. unfold index_annotations_by_image. rewrite H, H'. simpl.
  apply index_loop_filter.
Qed.

(** X3. An index neither loses nor repeats an annotation: its lists, taken
    together, are the annotations of the corpus that are not crowd-flagged,
    each as often as the corpus has it; and no annotation is in the lists of
    two image ids. *)
Theorem index_annotations_by_image_partition {num : Type}
    (data : corpus num) (annos : list (annotation num))
    (idx : gmap Z (list (annotation num))) :
  annotations data = Some annos →
  index_annotations_by_image data = Ok idx →
  index_contents idx ≡ₚ filter kept annos
  ∧ ∀ k1 k2 l1 l2 a,
      idx !! k1 = Some l1 → idx !! k2 = Some l2 → a ∈ l1 → a ∈ l2 → k1 = k2.
Proof.
  intros Hdata Hret. split.
  - unfold index_annotations_by_image in Hret. rewrite Hdata in Hret.
    simpl in Hret. rewrite (index_loop_contents annos ∅ idx Hret).
    unfold index_contents. by rewrite map_to_list_empty.
  - intros k1 k2 l1 l2 a Hl1 Hl2 Ha1 Ha2.
    rewrite (index_lookup data annos idx Hdata Hret) in Hl1, Hl2.
    unfold extend_entry in Hl1, Hl2.
    destruct (annotations_of k1 annos) eqn:E1; [done|].
    destruct (annotations_of k2 annos) eqn:E2; [done|].
    simpl in Hl1, Hl2. injection Hl1 as <-. injection Hl2 as <-.
    rewrite <-E1 in Ha1. rewrite <-E2 in Ha2.
    apply list_elem_of_filter in Ha1 as [[_ Hk1] _].
    apply list_elem_of_filter in Ha2 as [[_ Hk2] _]. congruence.
Qed.

(** X4. The exception of the indexer names the entry that the first
    defective annotation lacks: ["iscrowd"] when that is absent,
    ["image_id"] when the annotation is not crowd-flagged and has none;
    what follows that annotation is not looked at. *)
Theorem index_annotations_by_image_first_defect {num : Type}
    (data : corpus num) (l1 l2 : list (annotation num)) (a : annotation num) :
  annotations data = Some (l1 ++ a :: l2) →
  Forall indexable l1 →
  (iscrowd a = None →
   index_annotations_by_image data = Raise (KeyError "iscrowd"))
  ∧ (∀ f, iscrowd a = Some f → truthy f = false → image_id a = None →
     index_annotations_by_image data = Raise (KeyError "image_id")).
Proof.
  intros Hdata Hwf. unfold index_annotations_by_image. rewrite Hdata. simpl.
  rewrite for_each_app.
  destruct (index_loop l1 Hwf ∅) as (m1 & -> & _). simpl. split.
  - intros Hc. unfold index_step. by rewrite Hc.
  - intros f Hc Ht Hid. unfold index_step. rewrite Hc. simpl.
    by rewrite Ht, Hid.
Qed.

(** ** Further results about [create_image_info_dict] *)

Section StringFacts.
Implicit Types (s t pre : string) (c : ascii).

Lemma append_cons a s t : String a s +:+ t = String a (s +:+ t).
Proof. reflexivity. Qed.

Lemma substring_all s : String.substring 0 (String.length s) s = s.
Proof. induction s as [|a s IH]; simpl; [done | by rewrite IH]. Qed.

Lemma substring_prefix pre s :
  String.substring 0 (String.length pre) (pre +:+ s) = pre.
Proof.
  induction pre as [|a pre IH]; [by destruct s|].
  rewrite append_cons. simpl. by rewrite IH.
Qed.

Lemma substring_suffix pre s :
  String.substring (String.length pre)
    (String.length (pre +:+ s) - String.length pre) (pre +:+ s) = s.
Proof.
  induction pre as [|a pre IH].
  - change (EmptyString +:+ s) with s. simpl. rewrite Nat.sub_0_r.
    apply substring_all.
  - rewrite append_cons. simpl. apply IH.
Qed.

Lemma append_empty_r s : s +:+ EmptyString = s.
Proof.
  induction s as [|a s IH]; [done|]. by rewrite append_cons, IH.
Qed.

Lemma free_of_app c s t : free_of c (s +:+ t) = free_of c s && free_of c t.
Proof.
  induction s as [|a s IH]; [done|].
  rewrite append_cons. simpl. by rewrite IH, andb_assoc.
Qed.

Lemma append_split s1 t1 s2 t2 :
  s1 +:+ t1 = s2 +:+ t2 → (String.length s1 ≤ String.length s2)%nat →
  ∃ mid, s2 = s1 +:+ mid ∧ t1 = mid +:+ t2.
Proof.
  revert s2. induction s1 as [|a s1 IH]; intros s2 Heq Hlen.
  - by exists s2.
  - destruct s2 as [|b s2]; simpl in Hlen; [lia|].
    rewrite !append_cons in Heq.
    injection Heq as -> Heq. destruct (IH s2 Heq) as (mid & -> & ->); [lia|].
    by exists mid.
Qed.

(** What [rfind] finds: nothing, and the character does not occur; or the
    position after which the character does not occur again. *)
Lemma rfind_from_spec c s (i last : Z) :
  (last < i)%Z →
  (rfind_from c s i last = last ∧ free_of c s = true)
  ∨ ∃ pre rest,
      s = pre +:+ String c rest
      ∧ rfind_from c s i last = (i + Z.of_nat (String.length pre))%Z
      ∧ free_of c rest = true.
Proof.
  revert i last. induction s as [|d s IH]; intros i last Hlt; simpl.
  - by left.
  - destruct (Ascii.eqb d c) eqn:Hd; simpl.
    + apply Ascii.eqb_eq in Hd as ->.
      destruct (IH (i + 1)%Z i) as [[Hr Hfree] | (pre & rest & -> & Hr & Hfree)];
        [lia | |].
      * right. exists EmptyString, s. simpl. rewrite Hr.
        split; [done|]. split; [lia | done].
      * right. exists (String c pre), rest. simpl. rewrite Hr.
        split; [done|]. split; [lia | done].
    + destruct (IH (i + 1)%Z last) as [[Hr Hfree] | (pre & rest & -> & Hr & Hfree)];
        [lia | |].
      * by left.
      * right. exists (String d pre), rest. simpl. rewrite Hr.
        split; [done|]. split; [lia | done].
Qed.

(** [splitext] splits: the two parts make up the path, and the second is an
    extension. *)
Lemma splitext_spec s :
  (splitext s).1 +:+ (splitext s).2 = s ∧ is_extension (splitext s).2.
Proof.
  unfold splitext.
  destruct (rfind_from_spec "." s 0 (-1)) as [[Hdot _] | (pre & rest & Hs & Hdot & Hfree)];
    [lia | |]; fold (rfind "." s) in Hdot.
  - destruct (rfind_from_spec "/" s 0 (-1)) as [[Hsep _] | (pre' & rest' & _ & Hsep & _)];
      [lia | |]; fold (rfind "/" s) in Hsep; rewrite Hdot, Hsep.
    + simpl. split; [apply append_empty_r | by left].
    + replace (_ <? _)%Z with false by (symmetry; apply Z.ltb_ge; lia).
      simpl. split; [apply append_empty_r | by left].
  - rewrite Hdot.
    destruct (_ && _) eqn:Hcond; simpl.
    2:{ split; [apply append_empty_r | by left]. }
    apply andb_prop in Hcond as [Hlt _]. apply Z.ltb_lt in Hlt.
    replace (Z.to_nat (0 + Z.of_nat (String.length pre)))
      with (String.length pre) by lia.
    subst s. rewrite substring_prefix, substring_suffix.
    split; [done|]. right. exists rest. split; [done|]. split; [done|].
    destruct (rfind_from_spec "/" (pre +:+ String "." rest) 0 (-1))
      as [[_ Hfree'] | (pre' & rest' & Hs' & Hsep & Hfree')]; [lia | |].
    + rewrite free_of_app in Hfree'. simpl in Hfree'.
      by apply andb_prop in Hfree' as [_ ?].
    + unfold rfind in Hlt. rewrite Hsep in Hlt.
      symmetry in Hs'.
      destruct (append_split pre' (String "/" rest') pre (String "." rest) Hs')
        as (mid & -> & Hmid); [lia|].
      destruct mid as [|x mid].
      * rewrite append_empty_r in Hlt. lia.
      * simpl in Hmid. injection Hmid as _ ->.
        rewrite free_of_app in Hfree'. simpl in Hfree'.
        by apply andb_prop in Hfree' as [_ ?].
Qed.
End StringFacts.

Section ImageInfoMore.
Context {num : Type}.
Implicit Types (d info : gmap string (image num)).
Implicit Types (img : image num) (imgs : list (image num)).

(** The dictionary grows by at most one entry per image, and by exactly one
    per image only when each key is new. *)
Lemma image_info_size_le imgs :
  ∀ d d', for_each image_info_step imgs d = Ok d' →
    (size d' ≤ size d + length imgs)%nat
    ∧ (size d' = size d + length imgs →
       NoDup (image_key <$> imgs)
       ∧ ∀ img k, img ∈ imgs → image_key img = Some k → d !! k = None).
Proof.
  induction imgs as [|img imgs IH]; intros d d' Hrun.
  - injection Hrun as <-. simpl. split; [lia|]. intros _.
    split; [constructor|]. intros img k Hin. by apply elem_of_nil in Hin.
  - simpl in Hrun.
    destruct (image_info_step d img) as [d1|e] eqn:Hstep; simpl in Hrun; [|done].
    destruct (named_key img (image_info_step_returns _ _ _ Hstep)) as [k0 Hk0].
    rewrite (image_info_step_ok d img k0 Hk0) in Hstep. injection Hstep as <-.
    destruct (IH _ _ Hrun) as [Hle Heq].
    pose proof (map_size_insert k0 img d) as Hsz.
    destruct (d !! k0) eqn:Hd; simpl in Hsz; simpl.
    + split; [lia | intros; lia].
    + split; [lia|]. intros Hfull. destruct Heq as [Hnd Hfresh]; [lia|].
      split.
      * change (NoDup (image_key img :: (image_key <$> imgs))).
        apply NoDup_cons. split; [|done].
        intros Hin. apply list_elem_of_fmap in Hin as (img' & Hkey & Hin).
        rewrite Hk0 in Hkey. symmetry in Hkey.
        specialize (Hfresh img' k0 Hin Hkey).
        by rewrite lookup_insert_eq in Hfresh.
      * intros img' k Hin Hkey. apply elem_of_cons in Hin as [->|Hin].
        -- congruence.
        -- specialize (Hfresh img' k Hin Hkey).
           destruct (decide (k = k0)) as [->|Hne].
           ++ by rewrite lookup_insert_eq in Hfresh.
           ++ by rewrite lookup_insert_ne in Hfresh.
Qed.
End ImageInfoMore.

(** X5. The dictionary of images has at most as many keys as the corpus has
    images, and as many exactly when no two images have the same key: every
    collision costs an image. *)
Theorem create_image_info_dict_size {num : Type}
    (json_load : string → result (corpus num)) (labels_path : string)
    (data : corpus num) (imgs : list (image num))
    (idx : gmap Z (list (annotation num))) (info : gmap string (image num)) :
  json_load labels_path = Ok data → images data = Some imgs →
  create_image_info_dict json_load labels_path = Ok (idx, info) →
  (size info ≤ length imgs)%nat
  ∧ (size info = length imgs ↔ NoDup (image_key <$> imgs)).
Proof.
  intros Hload Himgs. unfold create_image_info_dict. rewrite Hload. simpl.
  destruct (index_annotations_by_image data) as [idx0|e0]; simpl; [|done].
  rewrite Himgs. simpl.
  destruct (for_each image_info_step imgs ∅) as [info0|e1] eqn:Hret;
    simpl; [|done].
  intros [= -> ->].
  destruct (image_info_size_le imgs ∅ info Hret) as [Hle Heq].
  rewrite map_size_empty in Hle, Heq. simpl in Hle, Heq.
  split; [done|]. split.
  - intros Hfull. by apply Heq.
  - intros Hnd.
    assert (Forall named imgs) as Hnamed.
    { apply for_each_returns in Hret. eapply Forall_impl; [done|].
      intros img (s1 & s2 & H). by eapply image_info_step_returns. }
    rewrite (image_info_size imgs Hnamed Hnd ∅ info);
      [by rewrite map_size_empty| |done].
    intros. apply lookup_empty.
Qed.

(** X6. A key of the dictionary of images differs from the file name of its
    image by an extension only (nothing, or a dot followed by characters other
    than dot and slash): the directory part stays in the key.  So every
    image of the corpus has its key in the dictionary, and the image found
    there has the same file name up to the extension. *)
Theorem create_image_info_dict_extension {num : Type}
    (json_load : string → result (corpus num)) (labels_path : string)
    (data : corpus num) (imgs : list (image num))
    (idx : gmap Z (list (annotation num))) (info : gmap string (image num)) :
  json_load labels_path = Ok data → images data = Some imgs →
  create_image_info_dict json_load labels_path = Ok (idx, info) →
  (∀ k img, info !! k = Some img →
     ∃ ext, file_name img = Some (k +:+ ext) ∧ is_extension ext)
  ∧ (∀ img, img ∈ imgs →
       ∃ k ext img' ext',
         file_name img = Some (k +:+ ext) ∧ is_extension ext
         ∧ info !! k = Some img'
         ∧ file_name img' = Some (k +:+ ext') ∧ is_extension ext').
Proof.
  intros Hload Himgs. unfold create_image_info_dict. rewrite Hload. simpl.
  destruct (index_annotations_by_image data) as [idx0|e0]; simpl; [|done].
  rewrite Himgs. simpl.
  destruct (for_each image_info_step imgs ∅) as [info0|e1] eqn:Hret;
    simpl; [|done].
  intros [= -> ->].
  assert (Forall named imgs) as Hnamed.
  { apply for_each_returns in Hret. eapply Forall_impl; [done|].
    intros img (s1 & s2 & H). by eapply image_info_step_returns. }
  destruct (image_info_loop imgs Hnamed ∅) as (info' & Hrun & Hlk).
  assert (info' = info) as -> by congruence.
  assert (∀ k img, info !! k = Some img →
            ∃ ext, file_name img = Some (k +:+ ext) ∧ is_extension ext) as Hkey.
  { intros k img Hk. rewrite Hlk, lookup_empty in Hk.
    destruct (last _) as [img'|] eqn:Hlast; [|done]. injection Hk as ->.
    apply last_Some in Hlast as [l' Hl'].
    assert (img ∈ filter (λ img, image_key img = Some k) imgs) as Hin
      by (rewrite Hl'; set_solver).
    apply list_elem_of_filter in Hin as [Hkey _].
    unfold image_key in Hkey. destruct (file_name img) as [name|]; [|done].
    simpl in Hkey. injection Hkey as <-.
    destruct (splitext_spec name) as [Hname Hext].
    exists (splitext name).2. by rewrite Hname. }
  split; [done|].
  intros img Hin. rewrite Forall_forall in Hnamed.
  destruct (Hnamed img Hin) as [name Hname].
  destruct (splitext_spec name) as [Hsplit Hext].
  assert (is_Some (info !! (splitext name).1)) as [img' Himg'].
  { rewrite Hlk.
    assert (img ∈ filter (λ img, image_key img = Some (splitext name).1) imgs)
      as Hf.
    { apply list_elem_of_filter. split; [|done].
      unfold image_key. by rewrite Hname. }
    destruct (filter _ imgs) as [|x l _] using rev_ind.
    - by apply elem_of_nil in Hf.
    - rewrite last_snoc. by eexists. }
  destruct (Hkey _ _ Himg') as (ext' & Hname' & Hext').
  exists (splitext name).1, (splitext name).2, img', ext'.
  by rewrite Hsplit.
Qed.

(** ** Further results about [get_scaled_segmentation] *)

Section ScalerMore.
Context {num : Type}.
Variable ndiv : num → num → num.
Implicit Types (a : annotation num) (annos : list (annotation num)).
Implicit Types (acc out : list (list (cell num))).

(** The body of the loop only appends: from any list built so far it does
    what it does from the empty list. *)
Lemma scale_step_acc (h w : num) acc a :
  scale_step ndiv h w acc a
  = bind (scale_step ndiv h w [] a) (λ o, Ok (acc ++ o)).
Proof.
  unfold scale_step, reshape2.
  destruct (category_id a); simpl; [|done].
  destruct (segmentation a); simpl; [|done].
  by destruct (Nat.even _).
Qed.

Lemma scale_loop_acc (h w : num) annos :
  ∀ acc, for_each (scale_step ndiv h w) annos acc
         = bind (for_each (scale_step ndiv h w) annos []) (λ o, Ok (acc ++ o)).
Proof.
  induction annos as [|a annos IH]; intros acc; simpl.
  - by rewrite app_nil_r.
  - rewrite (scale_step_acc h w acc a).
    destruct (scale_step ndiv h w [] a) as [o1|e]; simpl; [|done].
    rewrite (IH (acc ++ o1)), (IH o1).
    destruct (for_each _ annos []); simpl; [by rewrite app_assoc | done].
Qed.

Lemma normalized_polygon_length (w h : num) c rings :
  Nat.even (length (concat rings)) = true →
  length (normalized_polygon ndiv w h c rings) = S (length (concat rings)).
Proof.
  intros He. unfold normalized_polygon. simpl.
  by rewrite normalized_cells, length_imap.
Qed.
End ScalerMore.

(** X7. Annotations are scaled one by one: the call on a list in two parts
    returns exactly when the calls on the two parts return, and its output
    is then the output for the first part followed by the output for the
    second. *)
Theorem get_scaled_segmentation_app {num : Type} (ndiv : num → num → num)
    (l1 l2 : list (annotation num)) (dims : image num)
    (out : list (list (cell num))) :
  get_scaled_segmentation ndiv (Some (l1 ++ l2)) dims = Ok (Some out)
  ↔ ∃ out1 out2,
      get_scaled_segmentation ndiv (Some l1) dims = Ok (Some out1)
      ∧ get_scaled_segmentation ndiv (Some l2) dims = Ok (Some out2)
      ∧ out = out1 ++ out2.
Proof.
  unfold get_scaled_segmentation.
  destruct (height dims) as [h|]; simpl; [|split; [done | by intros (? & ? & ? & _)]].
  destruct (width dims) as [w|]; simpl; [|split; [done | by intros (? & ? & ? & _)]].
  rewrite for_each_app.
  destruct (for_each (scale_step ndiv h w) l1 []) as [o1|e1]; simpl;
    [|split; [done | by intros (? & ? & ? & _)]].
  rewrite scale_loop_acc.
  destruct (for_each (scale_step ndiv h w) l2 []) as [o2|e2]; simpl;
    [|split; [done | by intros (? & ? & _ & ? & _)]].
  split.
  - intros [= <-]. by exists o1, o2.
  - intros (out1 & out2 & [= <-] & [= <-] & ->). done.
Qed.

(** X8. The order in which [get_scaled_segmentation] raises.  The height is
    read first and the width second, before any annotation, also for an
    empty list.  Then the first annotation that cannot be scaled decides,
    whatever follows it: [KeyError] for its category id when that is
    absent, else [KeyError] for its segmentation when that is absent, else
    the [ValueError] of an odd point list. *)
Theorem get_scaled_segmentation_first_defect {num : Type}
    (ndiv : num → num → num)
    (l1 l2 : list (annotation num)) (a : annotation num) (dims : image num) :
  (height dims = None →
   ∀ annos, get_scaled_segmentation ndiv (Some annos) dims
            = Raise (KeyError "height"))
  ∧ (is_Some (height dims) → width dims = None →
     ∀ annos, get_scaled_segmentation ndiv (Some annos) dims
              = Raise (KeyError "width"))
  ∧ (is_Some (height dims) → is_Some (width dims) → Forall scalable l1 →
     (category_id a = None →
      get_scaled_segmentation ndiv (Some (l1 ++ a :: l2)) dims
      = Raise (KeyError "category_id"))
     ∧ (is_Some (category_id a) → segmentation a = None →
        get_scaled_segmentation ndiv (Some (l1 ++ a :: l2)) dims
        = Raise (KeyError "segmentation"))
     ∧ (is_Some (category_id a) → odd_polygon a →
        get_scaled_segmentation ndiv (Some (l1 ++ a :: l2)) dims
        = Raise ValueError)).
Proof.
  unfold get_scaled_segmentation. split; [|split].
  - by intros ->.
  - by intros [h ->] ->.
  - intros [h ->] [w ->] Hwf. simpl. rewrite for_each_app.
    destruct (scale_loop ndiv h w l1 Hwf []) as (o1 & -> & _). simpl.
    unfold scale_step, reshape2. split; [|split].
    + by intros ->.
    + by intros [c ->] ->.
    + intros [c ->] (rings & -> & Hodd). simpl. by rewrite Hodd.
Qed.

(** X9. The index feeds the scaler.  For a corpus that is indexed and whose
    annotations that are not crowd-flagged can be scaled, the entry of an
    image id, given as it is to [get_scaled_segmentation], yields [None]
    when the image has no such annotation and else their normalized
    polygons, one each, in corpus order.  A crowd-flagged annotation never
    reaches the scaler, so it need not be scalable. *)
Theorem index_then_scale {num : Type} (ndiv : num → num → num)
    (data : corpus num) (annos : list (annotation num))
    (idx : gmap Z (list (annotation num))) (dims : image num) (h w : num) :
  annotations data = Some annos →
  index_annotations_by_image data = Ok idx →
  height dims = Some h → width dims = Some w →
  (∀ a, a ∈ annos → kept a → scalable a) →
  ∀ k,
    (annotations_of k annos = [] →
     get_scaled_segmentation ndiv (idx !! k) dims = Ok None)
    ∧ (annotations_of k annos ≠ [] →
       ∃ out,
         get_scaled_segmentation ndiv (idx !! k) dims = Ok (Some out)
         ∧ Forall2 (polygon_of ndiv w h) (annotations_of k annos) out).
Proof.
  intros Hdata Hret Hh Hw Hsc k.
  rewrite (index_lookup data annos idx Hdata Hret k). unfold extend_entry.
  split.
  - by intros ->.
  - intros Hne.
    assert (Forall scalable (annotations_of k annos)) as Hwf.
    { apply Forall_forall. intros x Hx. unfold annotations_of in Hx.
      apply list_elem_of_filter in Hx as [[Hkept _] Hin]. by apply Hsc. }
    destruct (get_scaled_segmentation_ok ndiv _ dims h w Hh Hw Hwf)
      as (out & Hrun & Hout).
    exists out. split; [|done].
    by destruct (annotations_of k annos).
Qed.

(** X10. The shape of an output list: for an annotation with [n] numbers in
    its rings it has [n + 1] elements, an odd number; the first is the
    category id and the one at position [j + 1] is the [j]-th number
    divided by the width when [j] is even and by the height when [j] is
    odd. *)
Theorem get_scaled_segmentation_shape {num : Type} (ndiv : num → num → num)
    (annos : list (annotation num)) (dims : image num) (h w : num)
    (out : list (list (cell num))) :
  height dims = Some h → width dims = Some w →
  get_scaled_segmentation ndiv (Some annos) dims = Ok (Some out) →
  Forall (λ p, Nat.odd (length p) = true) out
  ∧ ∀ i a rings,
      annos !! i = Some a → segmentation a = Some rings →
      ∃ c p,
        category_id a = Some c ∧ out !! i = Some p
        ∧ length p = S (length (concat rings))
        ∧ p !! 0 = Some (CategoryId c)
        ∧ ∀ j v, concat rings !! j = Some v →
            p !! S j = Some (Coord (ndiv v (if Nat.even j then w else h))).
Proof.
  intros Hh Hw Hrun.
  destruct (get_scaled_segmentation_returns ndiv annos dims h w out Hh Hw Hrun)
    as [Hwf Hout].
  split.
  - apply Forall_forall. intros p Hp.
    apply list_elem_of_lookup in Hp as [i Hi].
    destruct (Forall2_lookup_r _ _ _ _ _ Hout Hi)
      as (a & Ha & c & rings & Hc & Hs & ->).
    rewrite Forall_forall in Hwf.
    destruct (Hwf a) as [_ (rings' & Hs' & He)].
    { apply list_elem_of_lookup. by exists i. }
    assert (rings' = rings) as -> by congruence.
    rewrite normalized_polygon_length by done.
    by rewrite Nat.odd_succ.
  - intros i a rings Ha Hs.
    destruct (Forall2_lookup_l _ _ _ _ _ Hout Ha)
      as (p & Hp & c & rings' & Hc & Hs' & ->).
    assert (rings' = rings) as -> by congruence.
    rewrite Forall_forall in Hwf.
    destruct (Hwf a) as [_ (rings' & Hs'' & He)].
    { apply list_elem_of_lookup. by exists i. }
    assert (rings' = rings) as -> by congruence.
    exists c, (normalized_polygon ndiv w h c rings).
    split; [done|]. split; [done|].
    split; [by apply normalized_polygon_length|]. split; [done|].
    intros j v Hv. rewrite normalized_polygon_lookup by done.
    by rewrite Hv.
Qed.


(** ** Further results about [find_labels_path] *)

Section PathFacts.
Implicit Types (s t pre suf : string).

Lemma length_append s t :
  String.length (s +:+ t) = String.length s + String.length t.
Proof.
  induction s as [|a s IH]; [done|]. rewrite append_cons. simpl. by rewrite IH.
Qed.

Lemma append_assoc s t u : (s +:+ t) +:+ u = s +:+ t +:+ u.
Proof.
  induction s as [|a s IH]; [done|]. by rewrite !append_cons, IH.
Qed.

Lemma substring_skip pre k n t :
  String.substring (String.length pre + k) n (pre +:+ t) = String.substring k n t.
Proof.
  induction pre as [|a pre IH]; [done|]. rewrite append_cons. simpl. apply IH.
Qed.

(** Whether a path ends with [suf] is decided by its last component, when
    that is long enough. *)
Lemma endswith_app s t suf :
  (String.length suf ≤ String.length t)%nat →
  endswith (s +:+ t) suf = endswith t suf.
Proof.
  intros Hlen. unfold endswith. rewrite length_append.
  replace (String.length s + String.length t - String.length suf)
    with (String.length s + (String.length t - String.length suf)) by lia.
  rewrite substring_skip. f_equal.
  destruct (Nat.leb_spec (String.length suf) (String.length t)); [|lia].
  apply Nat.leb_le. lia.
Qed.

Lemma append_not_empty s t :
  t ≠ EmptyString → String.eqb (s +:+ t) EmptyString = false.
Proof. intros Ht. destruct s; [by destruct t | done]. Qed.

Lemma txt_labels_path_absolute (dataset_path phase_name : string) :
  startswith phase_name "/" = true →
  txt_labels_path dataset_path phase_name = phase_name.
Proof.
  intros Hp. unfold txt_labels_path, path_join. simpl.
  unfold join_step at 1. by rewrite Hp.
Qed.

Lemma txt_labels_path_plain (dataset_path phase_name : string) :
  startswith phase_name "/" = false →
  dataset_path ≠ EmptyString → endswith dataset_path "/" = false →
  txt_labels_path dataset_path phase_name
  = dataset_path +:+ "/labels/" +:+ phase_name.
Proof.
  intros Hp Hd Hslash. unfold txt_labels_path, path_join. simpl.
  unfold join_step. rewrite Hp.
  change (startswith "labels" "/") with false. cbv iota.
  apply String.eqb_neq in Hd. rewrite Hd, Hslash. simpl.
  change ("/" +:+ "labels") with "/labels".
  rewrite append_not_empty by done.
  rewrite (endswith_app dataset_path "/labels" "/") by (simpl; lia).
  change (endswith "/labels" "/") with false. simpl.
  by rewrite append_assoc.
Qed.

Lemma txt_labels_path_slash (dataset_path phase_name : string) :
  startswith phase_name "/" = false →
  dataset_path = EmptyString ∨ endswith dataset_path "/" = true →
  txt_labels_path dataset_path phase_name
  = dataset_path +:+ "labels/" +:+ phase_name.
Proof.
  intros Hp Hd. unfold txt_labels_path, path_join. simpl.
  unfold join_step. rewrite Hp.
  change (startswith "labels" "/") with false. cbv iota.
  assert (String.eqb dataset_path EmptyString || endswith dataset_path "/" = true)
    as ->.
  { destruct Hd as [->| ->]; [done | apply orb_true_r]. }
  rewrite append_not_empty by done.
  rewrite (endswith_app dataset_path "labels" "/") by (simpl; lia).
  change (endswith "labels" "/") with false. simpl.
  by rewrite append_assoc.
Qed.
End PathFacts.

(** X12. Where [find_labels_path] looks and what it returns as the
    location: the directory [labels/<phase>] under the dataset path,
    joined with a slash unless the dataset path is empty or ends with one;
    but a phase name that starts with a slash is taken as the location as
    it is, and the dataset path is then not used. *)
Theorem find_labels_path_location (fs : filesystem)
    (dataset_path phase_name location format_tag : string) :
  find_labels_path fs dataset_path phase_name = Ok (location, format_tag) →
  (startswith phase_name "/" = true → location = phase_name)
  ∧ (startswith phase_name "/" = false →
     dataset_path ≠ EmptyString → endswith dataset_path "/" = false →
     location = dataset_path +:+ "/labels/" +:+ phase_name)
  ∧ (startswith phase_name "/" = false →
     dataset_path = EmptyString ∨ endswith dataset_path "/" = true →
     location = dataset_path +:+ "labels/" +:+ phase_name).
Proof.
  rewrite find_labels_path_cases.
  destruct (has_txt_labels _ _); [|done]. intros [= <- _].
  split; [|split].
  - apply txt_labels_path_absolute.
  - apply txt_labels_path_plain.
  - apply txt_labels_path_slash.
Qed.

(** ** The further results at the sample data *)

Lemma index_annotations_by_image_app_witness :
  ∃ idx1 idx2,
    index_annotations_by_image (Fixture.with_annotations Fixture.shard1) = Ok idx1
    ∧ index_annotations_by_image (Fixture.with_annotations Fixture.shard2) = Ok idx2
    ∧ index_annotations_by_image
        (Fixture.with_annotations (Fixture.shard1 ++ Fixture.shard2))
      = Ok (merge_index idx1 idx2).
Proof.
  destruct (index_annotations_by_image_app
              (Fixture.with_annotations Fixture.shard1)
              (Fixture.with_annotations Fixture.shard2)
              (Fixture.with_annotations (Fixture.shard1 ++ Fixture.shard2))
              Fixture.shard1 Fixture.shard2 eq_refl eq_refl eq_refl)
    as [Hmerge Hparts].
  destruct (Hparts _ eq_refl) as (idx1 & idx2 & H1 & H2).
  exists idx1, idx2. split; [exact H1|]. split; [exact H2|].
  exact (Hmerge idx1 idx2 H1 H2).
Defined.

Lemma index_annotations_by_image_crowd_blind_witness :
  index_annotations_by_image
    (Fixture.with_annotations [Sample.anno_cat; Sample.anno_dog; Sample.anno_cat2])
  = index_annotations_by_image Sample.data.
Proof.
  apply (index_annotations_by_image_crowd_blind Sample.data _ Sample.annos);
    reflexivity.
Defined.

Lemma index_annotations_by_image_partition_witness :
  ∃ idx,
    index_annotations_by_image Sample.data = Ok idx
    ∧ index_contents idx
      ≡ₚ [Sample.anno_cat; Sample.anno_dog; Sample.anno_cat2].
Proof.
  eexists. split; [reflexivity|].
  exact (proj1 (index_annotations_by_image_partition Sample.data Sample.annos
                  _ eq_refl eq_refl)).
Defined.

Lemma index_annotations_by_image_first_defect_witness :
  index_annotations_by_image
    (Fixture.with_annotations
       ([Sample.anno_cat; Sample.anno_crowd]
        ++ Fixture.anno_no_flag :: [Fixture.anno_no_image]))
  = Raise (KeyError "iscrowd").
Proof.
  apply (index_annotations_by_image_first_defect
           _ [Sample.anno_cat; Sample.anno_crowd] [Fixture.anno_no_image]
           Fixture.anno_no_flag).
  - reflexivity.
  - repeat constructor; by eexists.
  - reflexivity.
Defined.

Lemma create_image_info_dict_size_witness :
  ∃ idx info,
    create_image_info_dict (Sample.load Sample.data_collision)
      "coco/annotations/instances_train.json"
    = Ok (idx, info)
    ∧ (size info ≤ 3)%nat.
Proof.
  eexists _, _. split; [reflexivity|].
  exact (proj1 (create_image_info_dict_size (Sample.load Sample.data_collision)
                  "coco/annotations/instances_train.json" Sample.data_collision
                  [Sample.img1; Sample.img2; Sample.img1_png] _ _
                  eq_refl eq_refl eq_refl)).
Defined.

Lemma create_image_info_dict_extension_witness :
  ∃ idx info,
    create_image_info_dict (Sample.load Sample.data_collision)
      "coco/annotations/instances_train.json"
    = Ok (idx, info)
    ∧ ∀ k img, info !! k = Some img →
        ∃ ext, file_name img = Some (k +:+ ext) ∧ is_extension ext.
Proof.
  eexists _, _. split; [reflexivity|].
  exact (proj1 (create_image_info_dict_extension
                  (Sample.load Sample.data_collision)
                  "coco/annotations/instances_train.json" Sample.data_collision
                  [Sample.img1; Sample.img2; Sample.img1_png] _ _
                  eq_refl eq_refl eq_refl)).
Defined.

Lemma get_scaled_segmentation_app_witness :
  ∃ out1 out2,
    get_scaled_segmentation Qcdiv (Some [Sample.anno_cat]) Sample.img1
    = Ok (Some out1)
    ∧ get_scaled_segmentation Qcdiv (Some [Sample.anno_dog; Sample.anno_cat2])
        Sample.img1
      = Ok (Some out2)
    ∧ get_scaled_segmentation Qcdiv
        (Some ([Sample.anno_cat] ++ [Sample.anno_dog; Sample.anno_cat2]))
        Sample.img1
      = Ok (Some (out1 ++ out2)).
Proof.
  eexists _, _. split; [reflexivity|]. split; [reflexivity|].
  apply (get_scaled_segmentation_app Qcdiv [Sample.anno_cat]
           [Sample.anno_dog; Sample.anno_cat2] Sample.img1).
  eexists _, _. split; [reflexivity|]. split; reflexivity.
Defined.

Lemma get_scaled_segmentation_first_defect_witness :
  get_scaled_segmentation Qcdiv
    (Some ([Sample.anno_cat] ++ Fixture.anno_no_category :: [Sample.anno_odd]))
    Sample.img1
  = Raise (KeyError "category_id").
Proof.
  apply (get_scaled_segmentation_first_defect Qcdiv [Sample.anno_cat]
           [Sample.anno_odd] Fixture.anno_no_category Sample.img1).
  - by eexists.
  - by eexists.
  - repeat constructor; by eexists.
  - reflexivity.
Defined.

Lemma index_then_scale_witness :
  ∃ idx out,
    index_annotations_by_image
      (Fixture.with_annotations
         [Sample.anno_cat; Fixture.anno_rle_crowd; Sample.anno_dog])
    = Ok idx
    ∧ get_scaled_segmentation Qcdiv (idx !! 2%Z) Sample.img2 = Ok (Some out)
    ∧ Forall2 (polygon_of Qcdiv (Sample.q 10) (Sample.q 10)) [Sample.anno_dog] out.
Proof.
  eexists.
  destruct (index_then_scale Qcdiv
              (Fixture.with_annotations
                 [Sample.anno_cat; Fixture.anno_rle_crowd; Sample.anno_dog])
              [Sample.anno_cat; Fixture.anno_rle_crowd; Sample.anno_dog]
              _ Sample.img2 (Sample.q 10) (Sample.q 10)
              eq_refl eq_refl eq_refl eq_refl) with (k := 2%Z)
    as [_ Hsome].
  - intros a Ha Hk. rewrite !elem_of_cons, elem_of_nil in Ha.
    destruct Ha as [->|[->|[->|[]]]]; [|discriminate Hk|];
      (split; [by eexists | eexists; split; reflexivity]).
  - destruct Hsome as (out & Hrun & Hout); [discriminate|].
    exists out. split; [reflexivity|]. split; [exact Hrun | exact Hout].
Defined.

Lemma get_scaled_segmentation_shape_witness :
  ∃ out,
    get_scaled_segmentation Qcdiv (Some [Sample.anno_cat; Sample.anno_dog])
      Sample.img1
    = Ok (Some out)
    ∧ Forall (λ p, Nat.odd (length p) = true) out.
Proof.
  eexists. split; [reflexivity|].
  exact (proj1 (get_scaled_segmentation_shape Qcdiv
                  [Sample.anno_cat; Sample.anno_dog] Sample.img1
                  (Sample.q 10) (Sample.q 10) _ eq_refl eq_refl eq_refl)).
Defined.


Lemma find_labels_path_location_witness :
  find_labels_path Sample.fs_both "coco" "train" = Ok ("coco/labels/train", "txt")
  ∧ "coco/labels/train" = "coco" +:+ "/labels/" +:+ "train".
Proof.
  split; [reflexivity|].
  apply (find_labels_path_location Sample.fs_both "coco" "train"
           "coco/labels/train" "txt");
    [reflexivity | reflexivity | discriminate | reflexivity].
Defined.
